(** * 3d_doc: the frame-driven animation core of [main.go]

    The engine computes with Go's [float64] and [int].  This development
    reads [float64] as the real numbers [R] (no rounding, no NaN, no
    infinities) and [int] as [Z] within the 64-bit signed range, with the
    wrap-around of the additions and subtractions on [int] written out.
    A function that can panic or that calls itself returns an [option].
    Everything below is stated for that reading of the arithmetic. *)

From Stdlib Require Import Reals ZArith List Bool String Ascii Permutation Lia Lra Psatz.
Import ListNotations.
Local Open Scope list_scope.

Local Open Scope R_scope.

(** ** Numeric layer: [float64] as [R], [int] as 64-bit [Z] *)

Definition min_int : Z := (- 2 ^ 63)%Z.
Definition max_int : Z := (2 ^ 63 - 1)%Z.

(** Two's complement wrap of a mathematical integer into [int]. *)
Definition wrap64 (z : Z) : Z := ((z + 2 ^ 63) mod 2 ^ 64 - 2 ^ 63)%Z.

(** Go's [a - b], [a + b] and [a % b] on [int]; [%] truncates toward zero. *)
Definition int_sub (a b : Z) : Z := wrap64 (a - b).
Definition int_add (a b : Z) : Z := wrap64 (a + b).
Definition int_rem (a b : Z) : Z := Z.rem a b.

(** The comparison [x < y] of two [float64] values as a boolean. *)
Definition fltb (x y : R) : bool := if Rlt_dec x y then true else false.

(** Go's conversion [int(x)] of a [float64]: the fractional part is dropped
    (truncation toward zero).  Go leaves the result unspecified when the
    value does not fit in an [int]; the model keeps the truncation. *)
Definition int_of_float (x : R) : Z :=
  if Rle_dec 0 x then Int_part x else (- Int_part (- x))%Z.

(** [math.Floor], as an integer. *)
Definition floorZ (x : R) : Z := Int_part x.

(** [math.Mod(x, y)]: the remainder of the truncated division, which has the
    sign of [x] and magnitude below [|y|].  Go returns NaN for [y = 0]; the
    model has no NaN, and every call site passes a positive [y] (one turn,
    1, or the pixel length of a banner text that is not empty). *)
Definition fmod (x y : R) : R := x - y * IZR (int_of_float (x / y)).

(** A small error monad: [None] is a run-time panic (index out of range) or
    an exhausted recursion budget. *)
Definition bind {A B : Type} (m : option A) (k : A -> option B) : option B :=
  match m with
  | Some a => k a
  | None => None
  end.

Notation "x <- m ;; k" := (bind m (fun x => k))
  (at level 61, m at next level, right associativity).
Notation "' pat <- m ;; k" := (bind m (fun x => let 'pat := x in k))
  (at level 61, pat pattern, m at next level, right associativity).

(** A Go [for i := lo; i < hi; i++] loop whose body may panic. *)
Definition for_range {S : Type} (lo hi : nat) (body : nat -> S -> option S)
  (s : S) : option S :=
  fold_left (fun acc i => s' <- acc ;; body i s') (seq lo (hi - lo)) (Some s).

(** Slice indexing [l[i]] with an [int] index: out of range panics. *)
Definition index {A : Type} (l : list A) (i : Z) : option A :=
  if (i <? 0)%Z then None else nth_error l (Z.to_nat i).

(** Slice assignment [l[i] = v].  The code assigns inside the bounds only;
    outside them, where Go panics, this leaves the slice as it is. *)
Fixpoint assign {A : Type} (l : list A) (i : nat) (v : A) : list A :=
  match l, i with
  | [], _ => []
  | _ :: l', O => v :: l'
  | x :: l', S i' => x :: assign l' i' v
  end.

(** ** Constants *)

Definition screenWidth : Z := 768.
Definition screenHeight : Z := 540.
Definition fontWidth : Z := 62.
Definition fontHeight : Z := 50.

(** ** Vec3 and its rotation about the Y axis *)

Module Vec3.

Record t : Type := mk { X : R; Y : R; Z : R }.

(** [RotateY] mutates the receiver; the model returns the new vector. *)
Definition RotateY (v : t) (r : R) : t :=
  let z2 := Z v * cos r - X v * sin r in
  let x2 := Z v * sin r + X v * cos r in
  mk x2 (Y v) z2.

End Vec3.

(** ** Projected sprites *)

Module Sprite.

Record t : Type := mk { U : R; V : R; W : R; Z : R }.

End Sprite.

Definition NewSprite (p : Vec3.t) (focalLength : R)
  (canvasWidth canvasHeight : Z) : Sprite.t :=
  let centerX := IZR canvasWidth / 2 in
  let centerY := IZR canvasHeight / 2 + 40 in
  let scale := focalLength / (focalLength + Vec3.Z p) in
  Sprite.mk (Vec3.X p * scale + centerX) (Vec3.Y p * scale + centerY)
            (scale * 0.7) (Vec3.Z p).

(** ** Animation parameters *)

Record Anim : Type := mkAnim {
  SpinSpeed : R;
  Displace : R;
  BallLineDisplacement : R;
  RadiusFromCenterOfScreen : R
}.

(** [getMovement] calls itself in its [default] branch.  The recursion budget
    [fuel] counts the calls that may still be entered: [None] means the
    budget did not suffice. *)
Fixpoint getMovement (fuel : nat) (index : Z) (t : R) (i : Z) : option Anim :=
  match fuel with
  | O => None
  | S fuel' =>
    let index :=
      if (index <? 2)%Z && fltb 21 t
      then int_add 2 (int_rem (int_of_float (t / 7)) 6)
      else index in
    match index with
    | 0%Z | 1%Z => Some (mkAnim (-5) 40 0 0)
    | 2%Z => Some (mkAnim (-5) (-60 - sin (t * 7) * 95) 35 150)
    | 3%Z => Some (mkAnim 5 (sin ((t + IZR i) * 0.5 * 13) * 90 - 50) 16 150)
    | 4%Z =>
      Some (mkAnim 5
              (80 - Rabs (sin ((t + IZR i) * 0.125 * 13.5) * 8
                          * cos ((t + IZR i) * 0.125 * 13.5) * 42) - 50)
              20 150)
    | 5%Z =>
      Some (mkAnim 5
              (sin ((t + IZR i) * 0.25 * 13.5) * 8
               * cos ((t + IZR i) * 0.25 * 13.5) * 22 - 50)
              20 150)
    | 6%Z =>
      Some (mkAnim (-7)
              (sin ((t + IZR i) * 0.25 * 13.5) * 8
               * cos ((t + IZR i) * 0.25 * 13.5) * 22 - 50)
              20 150)
    | 7%Z =>
      Some (mkAnim (-8)
              (10 - Rabs (sin ((t * 0.6 + IZR i * 0.05) * 1.75) * 70) * 2.3)
              20 150)
    | _ => getMovement fuel' (int_add 2 (int_rem (int_sub index 2) 6)) t i
    end
  end.

Definition blendAnim (a b : Anim) (alpha : R) : Anim :=
  mkAnim (SpinSpeed a * (1 - alpha) + SpinSpeed b * alpha)
         (Displace a * (1 - alpha) + Displace b * alpha)
         (BallLineDisplacement a * (1 - alpha) + BallLineDisplacement b * alpha)
         (RadiusFromCenterOfScreen a * (1 - alpha)
          + RadiusFromCenterOfScreen b * alpha).

(** ** Engine state

    The fields of [Game] that hold numbers, text and flags.  The images, the
    audio handles and the start time are left out: the clock reading
    [time.Since(g.startTime).Seconds()] is an argument [t] of the functions
    that read it. *)

Record Game : Type := mkGame {
  vbl : R;
  vbl2 : R;
  vbl3 : Z;
  vbl4 : R;
  xMove : R;
  yMove : R;
  xm : R;
  ym : R;
  fov : R;
  speed : R;
  scrollX : list R;
  scrollXMod : Z;
  text1 : string;
  text2 : string;
  scrollX1 : R;
  scrollX2 : R;
  scrollX3 : R;
  currentRadians : R;
  overWriteFirstTwoWaveforms : bool;
  jump : bool
}.

(** Field assignments [g.f = v]. *)

Definition set_vbl (g : Game) (v : R) : Game :=
  mkGame v (vbl2 g) (vbl3 g) (vbl4 g) (xMove g) (yMove g) (xm g) (ym g)
    (fov g) (speed g) (scrollX g) (scrollXMod g) (text1 g) (text2 g)
    (scrollX1 g) (scrollX2 g) (scrollX3 g) (currentRadians g)
    (overWriteFirstTwoWaveforms g) (jump g).

Definition set_vbl2 (g : Game) (v : R) : Game :=
  mkGame (vbl g) v (vbl3 g) (vbl4 g) (xMove g) (yMove g) (xm g) (ym g)
    (fov g) (speed g) (scrollX g) (scrollXMod g) (text1 g) (text2 g)
    (scrollX1 g) (scrollX2 g) (scrollX3 g) (currentRadians g)
    (overWriteFirstTwoWaveforms g) (jump g).

Definition set_vbl3 (g : Game) (v : Z) : Game :=
  mkGame (vbl g) (vbl2 g) v (vbl4 g) (xMove g) (yMove g) (xm g) (ym g)
    (fov g) (speed g) (scrollX g) (scrollXMod g) (text1 g) (text2 g)
    (scrollX1 g) (scrollX2 g) (scrollX3 g) (currentRadians g)
    (overWriteFirstTwoWaveforms g) (jump g).

Definition set_vbl4 (g : Game) (v : R) : Game :=
  mkGame (vbl g) (vbl2 g) (vbl3 g) v (xMove g) (yMove g) (xm g) (ym g)
    (fov g) (speed g) (scrollX g) (scrollXMod g) (text1 g) (text2 g)
    (scrollX1 g) (scrollX2 g) (scrollX3 g) (currentRadians g)
    (overWriteFirstTwoWaveforms g) (jump g).

Definition set_xMove (g : Game) (v : R) : Game :=
  mkGame (vbl g) (vbl2 g) (vbl3 g) (vbl4 g) v (yMove g) (xm g) (ym g)
    (fov g) (speed g) (scrollX g) (scrollXMod g) (text1 g) (text2 g)
    (scrollX1 g) (scrollX2 g) (scrollX3 g) (currentRadians g)
    (overWriteFirstTwoWaveforms g) (jump g).

Definition set_yMove (g : Game) (v : R) : Game :=
  mkGame (vbl g) (vbl2 g) (vbl3 g) (vbl4 g) (xMove g) v (xm g) (ym g)
    (fov g) (speed g) (scrollX g) (scrollXMod g) (text1 g) (text2 g)
    (scrollX1 g) (scrollX2 g) (scrollX3 g) (currentRadians g)
    (overWriteFirstTwoWaveforms g) (jump g).

Definition set_xm (g : Game) (v : R) : Game :=
  mkGame (vbl g) (vbl2 g) (vbl3 g) (vbl4 g) (xMove g) (yMove g) v (ym g)
    (fov g) (speed g) (scrollX g) (scrollXMod g) (text1 g) (text2 g)
    (scrollX1 g) (scrollX2 g) (scrollX3 g) (currentRadians g)
    (overWriteFirstTwoWaveforms g) (jump g).

Definition set_speed (g : Game) (v : R) : Game :=
  mkGame (vbl g) (vbl2 g) (vbl3 g) (vbl4 g) (xMove g) (yMove g) (xm g) (ym g)
    (fov g) v (scrollX g) (scrollXMod g) (text1 g) (text2 g)
    (scrollX1 g) (scrollX2 g) (scrollX3 g) (currentRadians g)
    (overWriteFirstTwoWaveforms g) (jump g).

Definition set_scrollX (g : Game) (v : list R) : Game :=
  mkGame (vbl g) (vbl2 g) (vbl3 g) (vbl4 g) (xMove g) (yMove g) (xm g) (ym g)
    (fov g) (speed g) v (scrollXMod g) (text1 g) (text2 g)
    (scrollX1 g) (scrollX2 g) (scrollX3 g) (currentRadians g)
    (overWriteFirstTwoWaveforms g) (jump g).

Definition set_scrollXMod (g : Game) (v : Z) : Game :=
  mkGame (vbl g) (vbl2 g) (vbl3 g) (vbl4 g) (xMove g) (yMove g) (xm g) (ym g)
    (fov g) (speed g) (scrollX g) v (text1 g) (text2 g)
    (scrollX1 g) (scrollX2 g) (scrollX3 g) (currentRadians g)
    (overWriteFirstTwoWaveforms g) (jump g).

Definition set_scrollX1 (g : Game) (v : R) : Game :=
  mkGame (vbl g) (vbl2 g) (vbl3 g) (vbl4 g) (xMove g) (yMove g) (xm g) (ym g)
    (fov g) (speed g) (scrollX g) (scrollXMod g) (text1 g) (text2 g)
    v (scrollX2 g) (scrollX3 g) (currentRadians g)
    (overWriteFirstTwoWaveforms g) (jump g).

Definition set_scrollX2 (g : Game) (v : R) : Game :=
  mkGame (vbl g) (vbl2 g) (vbl3 g) (vbl4 g) (xMove g) (yMove g) (xm g) (ym g)
    (fov g) (speed g) (scrollX g) (scrollXMod g) (text1 g) (text2 g)
    (scrollX1 g) v (scrollX3 g) (currentRadians g)
    (overWriteFirstTwoWaveforms g) (jump g).

Definition set_currentRadians (g : Game) (v : R) : Game :=
  mkGame (vbl g) (vbl2 g) (vbl3 g) (vbl4 g) (xMove g) (yMove g) (xm g) (ym g)
    (fov g) (speed g) (scrollX g) (scrollXMod g) (text1 g) (text2 g)
    (scrollX1 g) (scrollX2 g) (scrollX3 g) v
    (overWriteFirstTwoWaveforms g) (jump g).

Definition set_overWriteFirstTwoWaveforms (g : Game) (v : bool) : Game :=
  mkGame (vbl g) (vbl2 g) (vbl3 g) (vbl4 g) (xMove g) (yMove g) (xm g) (ym g)
    (fov g) (speed g) (scrollX g) (scrollXMod g) (text1 g) (text2 g)
    (scrollX1 g) (scrollX2 g) (scrollX3 g) (currentRadians g)
    v (jump g).

Definition set_jump (g : Game) (v : bool) : Game :=
  mkGame (vbl g) (vbl2 g) (vbl3 g) (vbl4 g) (xMove g) (yMove g) (xm g) (ym g)
    (fov g) (speed g) (scrollX g) (scrollXMod g) (text1 g) (text2 g)
    (scrollX1 g) (scrollX2 g) (scrollX3 g) (currentRadians g)
    (overWriteFirstTwoWaveforms g) v.

(** The two banner texts.  Go's escape for a backslash is a single
    backslash character here. *)

Definition banner1 : string :=
  "               BILIZIR FROM DMA HAVE DONE IT AGAIN: A NEW GOLANG/EBITEN CONVERSION, THIS TIME THIS IS THE 3D-DOC FROM TCB    \          "%string.

Definition banner2 : string :=
  "                          BILIZIR IS PROUD TO PRESENT THE CONVERSION OF THE 3D-DOC DEMO!    THIS SCREEN WAS ORIGINALLY RELEASED IN TCB'S CUDDLY DEMOS ON ATARI ST A LONG TIME AGO...  HERE IT'S THE GOLANG VERSION OF THE 3D-DOC WELL IT'S A FREE ADAPTATION :)   GREETINGS TO ALL MEMBERS OF DMA AND THE UNION... LET'S WRAP!   "%string.

(** [NewGame]: every field not named in the literal has Go's zero value. *)
Definition NewGame : Game :=
  mkGame 0 0 0%Z 0 0 0 0 315 250 1 [] 0%Z banner1 banner2 0 0 0 0 true false.

(** ** The displacement table of the text scroller *)

(** One [for i := 0; i < n; i++ { tbl = append(tbl, f(float64(i))) }] loop. *)
Definition appendSamples (n : nat) (f : R -> R) (tbl : list R) : list R :=
  fold_left (fun acc i => acc ++ [f (INR i)]) (seq 0 n) tbl.

Definition precalcScrollX (g : Game) : Game :=
  let tbl := [] in
  let stp1 := 7.0 / 180.0 * PI in
  let stp2 := 3.0 / 180.0 * PI in
  let tbl := appendSamples 389 (fun i => 20 * sin (i * stp1) + 30 * cos (i * stp2)) tbl in
  let stp1 := 8.0 / 180.0 * PI in
  let tbl := appendSamples 68 (fun i => 30 * sin (i * stp1)) tbl in
  let stp1 := 7.0 / 180.0 * PI in
  let stp2 := 3.0 / 180.0 * PI in
  let tbl := appendSamples 389 (fun i => 20 * sin (i * stp1) + 30 * cos (i * stp2)) tbl in
  let stp1 := 8.0 / 180.0 * PI in
  let tbl := appendSamples 189 (fun i => 30 * sin (i * stp1)) tbl in
  let g := set_scrollX g tbl in
  set_scrollXMod g (Z.of_nat (List.length (scrollX g))).

(** The two waveforms of the table, by sample number. *)
Definition waveA (i : nat) : R :=
  20 * sin (INR i * (7.0 / 180.0 * PI)) + 30 * cos (INR i * (3.0 / 180.0 * PI)).

Definition waveB (i : nat) : R := 30 * sin (INR i * (8.0 / 180.0 * PI)).

(** [Init], without the loading of images and music. *)
Definition Init (g : Game) : Game := precalcScrollX g.

(** ** Text scroller *)

(** [drawScrollText] draws glyphs and returns the advanced offset; the model
    keeps the returned offset.  The glyph loop computes
    [(startChar + i) % len(text)], which panics on an empty text. *)
Definition drawScrollText (text : string) (scrollX : R) : option R :=
  let charSpacing := IZR fontWidth in
  if (String.length text =? 0)%nat then None
  else Some (fmod (scrollX + 3)
               (IZR (Z.of_nat (String.length text)) * charSpacing)).

(** One band of the wave: the horizontal shift read from the table at
    [(g.vbl3+j) % g.scrollXMod].  A zero modulus or an index outside the
    table panics. *)
Definition bandShift (g : Game) (j : nat) : option R :=
  if (scrollXMod g =? 0)%Z then None
  else index (scrollX g) (int_rem (int_add (vbl3 g) (Z.of_nat j)) (scrollXMod g)).

(** The draw positions of the 25 bands of the second pass, and the state
    after the frame. *)
Definition drawScroller (g : Game) : option (Game * list (R * R)) :=
  x2 <- drawScrollText (text2 g) (scrollX2 g) ;;
  let g := set_scrollX2 g x2 in
  _ <- for_range 0 25 (fun j acc => dstX <- bandShift g j ;; Some (acc ++ [dstX])) [] ;;
  let yOffset := 30 + 30 * cos (vbl4 g / 20) in
  bands <- for_range 0 25
             (fun j acc =>
                dstX <- bandShift g j ;;
                let dstY := IZR (Z.of_nat j * 2) + yOffset in
                Some (acc ++ [(dstX, dstY)])) [] ;;
  let g := set_vbl4 g (vbl4 g + 1.2) in
  let g := set_vbl3 g (int_add (vbl3 g) 1) in
  Some (g, bands).

(** ** Perspective floor *)

(** The wrap that [drawChessboard] applies to an offset after adding the
    frame's step: one subtraction above [period], one addition below 0. *)
Definition wrapOnce (period x : R) : R :=
  let x := if fltb period x then x - period else x in
  if fltb x 0 then x + period else x.

Definition advanceXMove (g : Game) : Game :=
  let g := set_xMove g (xMove g + xm g * speed g * 0.005) in
  set_xMove g (wrapOnce 32 (xMove g)).

Definition advanceYMove (g : Game) : Game :=
  let g := set_yMove g (yMove g + ym g * speed g * 0.016) in
  set_yMove g (wrapOnce 64 (yMove g)).

(** The horizontal offset after a frame whose step is [step], and the
    offsets after each of a sequence of frames. *)
Definition stepXMove (x step : R) : R := wrapOnce 32 (x + step).

Fixpoint xMoveTrace (x : R) (steps : list R) : list R :=
  match steps with
  | [] => []
  | step :: rest => stepXMove x step :: xMoveTrace (stepXMove x step) rest
  end.

Definition tenThousand : nat := Z.to_nat 10000.

(** The integers [lo, lo+1, ..., hi-1] of a counting loop. *)
Definition zrange (lo hi : Z) : list Z :=
  map (fun k => (lo + Z.of_nat k)%Z) (seq 0 (Z.to_nat (hi - lo))).

(** The four x coordinates of the quad of band [i]. *)
Definition floorQuad (g : Game) (i : Z) : R * R * R * R :=
  let x1 := -8 + IZR i * 32 + xMove g in
  let x2 := 8 + IZR i * 32 + xMove g in
  let x3 := -752 + IZR i * 192 + xMove g * 6 in
  let x4 := -848 + IZR i * 192 + xMove g * 6 in
  (x1, x2, x3, x4).

(** The strip of the mask for row [i]: its top and its height, when drawn. *)
Definition maskStrip (g : Game) (i : Z) : option (R * R) :=
  let y1 := -20 + (fov g / (fov g + IZR (2 * i) * 32 - yMove g)) * 50 in
  let y2 := -20 + (fov g / (fov g + IZR (2 * i) * 32 + 32 - yMove g)) * 50 in
  let '(y1, y2) := if fltb y2 y1 then (y2, y1) else (y1, y2) in
  if fltb y1 y2 && fltb y1 80 && fltb 0 y2 then
    let startY := Rmax 0 y1 in
    let endY := Rmin 80 y2 in
    Some (startY, endY - startY)
  else None.

Record Floor : Type := mkFloor {
  quads : list (R * R * R * R);
  strips : list (option (R * R))
}.

Definition drawChessboard (g : Game) : Game * Floor :=
  let g := advanceXMove g in
  let qs := map (floorQuad g) (zrange (-5) 50) in
  let g := advanceYMove g in
  let ms := map (maskStrip g) (zrange (-2) 8) in
  (g, mkFloor qs ms).

(** ** The orbiting bodies: [drawDoc] *)

Definition FOCAL_LENGTH : R := 400.
Definition BALL_WIDTH : R := 64.
Definition BALL_HEIGHT : R := 64.
Definition SHADOW_WIDTH : R := 64.
Definition SHADOW_HEIGHT : R := 16.
Definition ANIM_DURATION : R := 7.

Definition zeroSprite : Sprite.t := Sprite.mk 0 0 0 0.

(** State of the loop over the four bodies: the engine, the two sprite
    arrays, and (a record kept for the proofs only) the angle that each
    iteration passed to the final [p.RotateY]. *)
Record DocLoop : Type := mkDocLoop {
  loopGame : Game;
  balls : list Sprite.t;
  ballShadows : list Sprite.t;
  spinAngles : list R
}.

(** The animation index chosen for the frame at time [t]. *)
Definition animIndexAt (overWrite : bool) (t : R) : Z :=
  let animIndex := int_rem (int_of_float (t / ANIM_DURATION)) 8 in
  let animIndex :=
    if negb overWrite && (animIndex <? 2)%Z
    then int_add 2 (int_rem (int_of_float (t / ANIM_DURATION)) 6)
    else animIndex in
  if overWrite && (animIndex <? 2)%Z then 7%Z else animIndex.

Definition alphaAt (t : R) : R :=
  Rmin 1 (fmod (t / ANIM_DURATION) 1 * ANIM_DURATION * 0.8).

(** The blended parameters of body [i] at time [t]. *)
Definition animAt (fuel : nat) (overWrite : bool) (t : R) (i : nat)
  : option Anim :=
  let animIndex := animIndexAt overWrite t in
  let alpha := alphaAt t in
  a <- getMovement fuel animIndex t (Z.of_nat i) ;;
  b <- getMovement fuel (int_add animIndex 1) t (Z.of_nat i) ;;
  Some (blendAnim a b alpha).

(** Body of [for i := 0; i < 4; i++]. *)
Definition drawDocBody (fuel : nat) (t : R) (i : nat) (s : DocLoop)
  : option DocLoop :=
  let g := loopGame s in
  anim <- animAt fuel (overWriteFirstTwoWaveforms g) t i ;;
  let currentPos := Vec3.mk (RadiusFromCenterOfScreen anim) 0 0 in
  let currentPos :=
    Vec3.RotateY currentPos
      (PI * 2 / 360 * BallLineDisplacement anim * IZR (Z.of_nat i)) in
  let d := Vec3.mk 0 (Displace anim) 0 in
  let p := Vec3.mk (Vec3.X currentPos + Vec3.X d)
                   (Vec3.Y currentPos + Vec3.Y d)
                   (Vec3.Z currentPos + Vec3.Z d) in
  let g := set_currentRadians g
             (currentRadians g + (PI * 2 / 360) * SpinSpeed anim * 0.15) in
  let g := set_currentRadians g (fmod (currentRadians g) (PI * 2)) in
  let p := Vec3.RotateY p (currentRadians g) in
  let ps := Vec3.mk (Vec3.X p) 60 (Vec3.Z p) in
  Some (mkDocLoop g
          (assign (balls s) i (NewSprite p FOCAL_LENGTH screenWidth screenHeight))
          (assign (ballShadows s) i
             (NewSprite ps FOCAL_LENGTH screenWidth screenHeight))
          (spinAngles s ++ [currentRadians g])).

(** The angle by which one body advances the accumulated rotation, and the
    accumulated rotation after that advance. *)
Definition spinStep (spin : R) : R := (PI * 2 / 360) * spin * 0.15.

Definition advanceRadians (r spin : R) : R := fmod (r + spinStep spin) (PI * 2).

(** Where body [i] stands on its ring before the shared rotation. *)
Definition ringPosition (anim : Anim) (i : nat) : Vec3.t :=
  let currentPos :=
    Vec3.RotateY (Vec3.mk (RadiusFromCenterOfScreen anim) 0 0)
      (PI * 2 / 360 * BallLineDisplacement anim * IZR (Z.of_nat i)) in
  Vec3.mk (Vec3.X currentPos + 0) (Vec3.Y currentPos + Displace anim)
          (Vec3.Z currentPos + 0).

(** The sprite of a body that stands at [ringPosition] and is rotated by
    [angle], and the sprite of its shadow. *)
Definition ballAt (anim : Anim) (i : nat) (angle : R) : Sprite.t :=
  NewSprite (Vec3.RotateY (ringPosition anim i) angle)
            FOCAL_LENGTH screenWidth screenHeight.

Definition shadowAt (anim : Anim) (i : nat) (angle : R) : Sprite.t :=
  let p := Vec3.RotateY (ringPosition anim i) angle in
  NewSprite (Vec3.mk (Vec3.X p) 60 (Vec3.Z p))
            FOCAL_LENGTH screenWidth screenHeight.

(** One comparison of the ordering pass:
    [if balls[indices[i]].Z < balls[indices[j]].Z] swap the two entries. *)
Definition sortStep (balls : list Sprite.t) (i j : nat) (indices : list nat)
  : option (list nat) :=
  a <- nth_error indices i ;;
  b <- nth_error indices j ;;
  sa <- nth_error balls a ;;
  sb <- nth_error balls b ;;
  if fltb (Sprite.Z sa) (Sprite.Z sb)
  then Some (assign (assign indices i b) j a)
  else Some indices.

(** The ordering pass of [drawDoc] on [indices := []int{0, 1, 2, 3}]. *)
Definition sortIndices (balls : list Sprite.t) : option (list nat) :=
  for_range 0 3
    (fun i => for_range (i + 1) 4 (fun j => sortStep balls i j))
    [0; 1; 2; 3]%nat.

(** The depth of body [k], and the depths met along an order. *)
Definition depthOf (balls : list Sprite.t) (k : nat) : R :=
  Sprite.Z (nth k balls zeroSprite).

Definition depthsAlong (balls : list Sprite.t) (order : list nat) : list R :=
  map (depthOf balls) order.

Fixpoint nonIncreasing (l : list R) : Prop :=
  match l with
  | a :: (b :: _) as rest => b <= a /\ nonIncreasing rest
  | _ => True
  end.

(** An order is stable when bodies of equal depth appear in it by
    increasing index. *)
Definition stableOrder (balls : list Sprite.t) (order : list nat) : Prop :=
  forall (a b ia ib : nat),
    (a < b)%nat ->
    nth_error order a = Some ia ->
    nth_error order b = Some ib ->
    depthOf balls ia = depthOf balls ib ->
    (ia < ib)%nat.

(** A sprite of which only the depth matters. *)
Definition atDepth (z : R) : Sprite.t := Sprite.mk 0 0 0 z.

(** The shadow image chosen for a shadow sprite of scale [w]. *)
Definition shadowColor (w : R) : Z :=
  let shadowColor := int_of_float (((w - 0.5) * 10) / 2) in
  int_sub 3 (Z.max 0 (Z.min 3 shadowColor)).

Definition verticalDisplace (w : R) : R := Rmin 1 (Rmax 0 (1 - w)) * 26.

(** The bucket as the specification words it, for comparison with
    [shadowColor]: [clamp(3 - floor(((w - 0.5) * 10) / 2), 0, 3)]. *)
Definition clamp (x lo hi : Z) : Z := Z.max lo (Z.min hi x).

Definition shadowBucket (w : R) : Z :=
  clamp (3 - floorZ (((w - 0.5) * 10) / 2)) 0 3.

(** One [screen.DrawImage] call: which image, its scale, where. *)
Record DrawCall : Type := mkDrawCall {
  image : Z;
  scale : R;
  atX : R;
  atY : R
}.

(** [g.shadows[shadowColor]] on the array of four shadow images. *)
Definition shadowImage (c : Z) : option Z :=
  if (0 <=? c)%Z && (c <? 4)%Z then Some c else None.

Definition drawShadow (ballShadows : list Sprite.t) (idx : nat)
  : option DrawCall :=
  s <- nth_error ballShadows idx ;;
  let c := shadowColor (Sprite.W s) in
  let v := verticalDisplace (Sprite.W s) in
  img <- shadowImage c ;;
  Some (mkDrawCall img (Sprite.W s)
          (Sprite.U s - SHADOW_WIDTH * 0.5)
          (Sprite.V s - SHADOW_HEIGHT * 0.5 - v)).

(** The sphere image is written as image 4 of the frame's draw list. *)
Definition drawBall (balls : list Sprite.t) (idx : nat) : option DrawCall :=
  s <- nth_error balls idx ;;
  Some (mkDrawCall 4 (Sprite.W s)
          (Sprite.U s - BALL_WIDTH * 0.5)
          (Sprite.V s - BALL_HEIGHT * 0.5)).

(** [for _, idx := range indices] with a body that emits one draw call. *)
Fixpoint drawEach (draw : nat -> option DrawCall) (indices : list nat)
  : option (list DrawCall) :=
  match indices with
  | [] => Some []
  | idx :: rest =>
    c <- draw idx ;;
    cs <- drawEach draw rest ;;
    Some (c :: cs)
  end.

Record DocFrame : Type := mkDocFrame {
  frameBalls : list Sprite.t;
  frameShadows : list Sprite.t;
  frameAngles : list R;
  frameOrder : list nat;
  frameCalls : list DrawCall
}.

(** The first statement of [drawDoc]: the warm-up flag is cleared once the
    clock has passed three animation periods. *)
Definition endWarmUp (t : R) (g : Game) : Game :=
  if overWriteFirstTwoWaveforms g && fltb (ANIM_DURATION * 3) t
  then set_overWriteFirstTwoWaveforms g false
  else g.

Definition drawDoc (fuel : nat) (t : R) (g : Game) : option (Game * DocFrame) :=
  let g := endWarmUp t g in
  let zeros := [zeroSprite; zeroSprite; zeroSprite; zeroSprite] in
  s <- for_range 0 4 (drawDocBody fuel t) (mkDocLoop g zeros zeros []) ;;
  indices <- sortIndices (balls s) ;;
  shadowCalls <- drawEach (drawShadow (ballShadows s)) indices ;;
  ballCalls <- drawEach (drawBall (balls s)) indices ;;
  Some (loopGame s,
        mkDocFrame (balls s) (ballShadows s) (spinAngles s) indices
                   (shadowCalls ++ ballCalls)).

(** ** The frame loop *)

(** [text[i]] on a Go string, by byte. *)
Definition byteAt (text : string) (i : Z) : option ascii :=
  if (i <? 0)%Z then None else String.get (Z.to_nat i) text.

Definition backslash : ascii := Ascii.ascii_of_nat 92.

Definition Update (g : Game) : option Game :=
  if negb (jump g) then
    let charIndex := int_of_float (scrollX1 g / IZR fontWidth) in
    g <- (if (charIndex <? Z.of_nat (String.length (text1 g)))%Z then
            c <- byteAt (text1 g) charIndex ;;
            Some (if Ascii.eqb c backslash then set_jump g true else g)
          else Some g) ;;
    Some (set_scrollX1 g
            (fmod (scrollX1 g + 2)
               (IZR (Z.of_nat (String.length (text1 g))) * IZR fontWidth)))
  else
    let g := set_speed g (-1 * cos (vbl g / 40)) in
    let g := set_vbl g (vbl g + 0.16) in
    let g := set_xm g (128 * cos (vbl2 g / 40)) in
    let g := set_vbl2 g (vbl2 g + 0.8) in
    Some g.

Record Frame : Type := mkFrame {
  floor : option Floor;
  scrollerBands : list (R * R);
  doc : option DocFrame
}.

Definition Draw (fuel : nat) (t : R) (g : Game) : option (Game * Frame) :=
  if negb (jump g) then
    x1 <- drawScrollText (text1 g) (scrollX1 g) ;;
    let g := set_scrollX1 g x1 in
    Some (g, mkFrame None [] None)
  else
    let floorResult := drawChessboard g in
    let g := fst floorResult in
    let fl := snd floorResult in
    '(g, bands) <- drawScroller g ;;
    '(g, d) <- drawDoc fuel t g ;;
    Some (g, mkFrame (Some fl) bands (Some d)).

(** What the floor's horizontal motion reads and writes. *)
Definition floorView (g : Game) : R * R * R := (xm g, speed g, xMove g).

(** The bounds that hold throughout a run: the speeds are a cosine times
    their amplitude, and the offset is between 0 and 32. *)
Definition floorBounded (g : Game) : Prop :=
  Rabs (xm g) <= 128 /\ Rabs (speed g) <= 1 /\ 0 <= xMove g <= 32.

(** What the scroller needs in order not to panic: a banner text, the table
    with its length in [scrollXMod], and a frame counter that is not
    negative and not about to overflow. *)
Definition scrollerReady (g : Game) : Prop :=
  (0 < String.length (text2 g))%nat
  /\ scrollXMod g = Z.of_nat (List.length (scrollX g))
  /\ (0 < scrollXMod g)%Z
  /\ (0 <= vbl3 g <= max_int - 25)%Z.

(** The states the engine can be in: [Init] on a fresh [NewGame], followed
    by any number of [Update] and [Draw] calls, each [Draw] reading some
    clock value [t]. *)
Inductive reachable : Game -> Prop :=
| reach_init : reachable (Init NewGame)
| reach_update (g g' : Game) :
    reachable g -> Update g = Some g' -> reachable g'
| reach_draw (fuel : nat) (t : R) (g g' : Game) (f : Frame) :
    reachable g -> Draw fuel t g = Some (g', f) -> reachable g'.

(** [n] calls of [Update] in a row. *)
Fixpoint updates (n : nat) (g : Game) : option Game :=
  match n with
  | O => Some g
  | S n' => g' <- updates n' g ;; Update g'
  end.

(** The state in which the main phase is entered when the intro is played
    by [Update] alone: the banner has moved by 2 pixels 3876 times, the last
    of these calls has met the backslash of the banner (character 125, at
    pixel 7750) and has set [jump]. *)
Definition mainEntry : Game :=
  set_scrollX1 (set_jump (Init NewGame) true) 7752.


(** ** More of the engine *)

(** What holds of the engine in every state it reaches: the banners and
    the displacement table are the ones of [NewGame] and [Init], the
    vertical floor speed and the field of view are their initial values,
    the speeds and offsets are within their ranges. *)
Definition engineInvariant (g : Game) : Prop :=
  text1 g = banner1
  /\ text2 g = banner2
  /\ scrollX g = scrollX (Init NewGame)
  /\ scrollXMod g = 1035%Z
  /\ ym g = 315
  /\ fov g = 250
  /\ Rabs (speed g) <= 1
  /\ 0 <= yMove g <= 64
  /\ 0 <= scrollX1 g < 8432
  /\ 0 <= scrollX2 g < 19902.

(** The state in which the main phase has not been touched yet. *)
Definition mainUntouched (g : Game) : Prop :=
  vbl g = 0 /\ vbl2 g = 0 /\ vbl3 g = 0%Z /\ vbl4 g = 0
  /\ xMove g = 0 /\ yMove g = 0 /\ xm g = 0 /\ speed g = 1
  /\ scrollX2 g = 0 /\ currentRadians g = 0
  /\ overWriteFirstTwoWaveforms g = true.

(** One call of the host loop: an [Update], or a [Draw] at some clock
    reading. *)
Definition engineStep (g g' : Game) : Prop :=
  Update g = Some g'
  \/ exists (fuel : nat) (t : R) (f : Frame), Draw fuel t g = Some (g', f).

(** ** Glyphs *)

(** Go's [a * b] and [a / b] on [int]; [/] truncates toward zero. *)
Definition int_mul (a b : Z) : Z := wrap64 (a * b).
Definition int_quot (a b : Z) : Z := Z.quot a b.

(** The [switch] of [drawChar]: the number of the glyph of a byte in the
    font image. *)
Definition glyphIndex (char : Z) : Z :=
  match char with
  | 32 => 0
  | 33 => 1
  | 39 => 7
  | 40 => 8
  | 41 => 9
  | 44 => 12
  | 45 => 13
  | 46 => 14
  | 48 => 16
  | 49 => 17
  | 50 => 18
  | 51 => 19
  | 52 => 20
  | 53 => 21
  | 54 => 22
  | 55 => 23
  | 56 => 24
  | 57 => 25
  | 58 => 26
  | 59 => 27
  | 63 => 31
  | 65 | 97 => 33
  | 66 | 98 => 34
  | 67 | 99 => 35
  | 68 | 100 => 36
  | 69 | 101 => 37
  | 70 | 102 => 38
  | 71 | 103 => 39
  | 72 | 104 => 40
  | 73 | 105 => 41
  | 74 | 106 => 42
  | 75 | 107 => 43
  | 76 | 108 => 44
  | 77 | 109 => 45
  | 78 | 110 => 46
  | 79 | 111 => 47
  | 80 | 112 => 48
  | 81 | 113 => 49
  | 82 | 114 => 50
  | 83 | 115 => 51
  | 84 | 116 => 52
  | 85 | 117 => 53
  | 86 | 118 => 54
  | 87 | 119 => 55
  | 88 | 120 => 56
  | 89 | 121 => 57
  | 90 | 122 => 58
  | _ => 0
  end%Z.

(** One glyph drawn by [drawChar]: the rectangle cut out of the font image
    ([image.Rect(srcX, srcY, srcX+fontWidth, srcY+fontHeight)]), the scale
    and the position. *)
Record GlyphDraw : Type := mkGlyphDraw {
  srcX : Z;
  srcY : Z;
  srcX2 : Z;
  srcY2 : Z;
  glyphScale : R;
  glyphX : R;
  glyphY : R
}.

Definition drawChar (char : Z) (x y scale : R) : GlyphDraw :=
  let index := glyphIndex char in
  let cols := 10%Z in
  let srcX := int_mul (int_rem index cols) fontWidth in
  let srcY := int_mul (int_quot index cols) fontHeight in
  mkGlyphDraw srcX srcY (int_add srcX fontWidth) (int_add srcY fontHeight)
              scale x y.

(** The code of a byte of a text. *)
Definition byteCode (c : ascii) : Z := Z.of_nat (nat_of_ascii c).

(** One iteration of the glyph loop of [drawScrollText] on a canvas [dx]
    pixels wide: [None] is a panic, [Some None] an iteration that draws
    nothing. *)
Definition scrollGlyph (dx : Z) (text : string) (startChar : Z) (offset : R)
  (i : nat) : option (option GlyphDraw) :=
  let charSpacing := IZR fontWidth in
  let len := Z.of_nat (String.length text) in
  if (len =? 0)%Z then None
  else
    let charIndex := int_rem (int_add startChar (Z.of_nat i)) len in
    let charIndex :=
      if (charIndex <? 0)%Z then int_add charIndex len else charIndex in
    let x := IZR (Z.of_nat i) * charSpacing - offset in
    if negb (fltb x (- charSpacing)) && fltb x (IZR dx + charSpacing)
    then c <- byteAt text charIndex ;; Some (Some (drawChar (byteCode c) x 0 1))
    else Some None.

(** [drawScrollText] with its glyphs: the glyphs drawn on a canvas [dx]
    pixels wide, and the advanced offset. *)
Definition drawScrollTextGlyphs (dx : Z) (text : string) (scrollX : R)
  : option (list GlyphDraw * R) :=
  let charSpacing := IZR fontWidth in
  let startChar := int_of_float (scrollX / charSpacing) in
  let offset := fmod scrollX charSpacing in
  let maxChars := int_add (int_of_float (IZR dx / charSpacing)) 3 in
  glyphs <- for_range 0 (Z.to_nat maxChars)
              (fun i acc =>
                 og <- scrollGlyph dx text startChar offset i ;;
                 Some (match og with
                       | Some gd => acc ++ [gd]
                       | None => acc
                       end)) [] ;;
  Some (glyphs,
        fmod (scrollX + 3)
          (IZR (Z.of_nat (String.length text)) * charSpacing)).

(** * Proofs *)

(** *** Facts about the numeric layer *)

Lemma wrap64_id (z : Z) : (min_int <= z <= max_int)%Z -> wrap64 z = z.
Proof.
  unfold wrap64, min_int, max_int. intros H.
  rewrite Z.mod_small by lia. lia.
Qed.

Lemma fltb_true (x y : R) : x < y -> fltb x y = true.
Proof. intros H. unfold fltb. destruct (Rlt_dec x y); [reflexivity | contradiction]. Qed.

Lemma fltb_false (x y : R) : y <= x -> fltb x y = false.
Proof. intros H. unfold fltb. destruct (Rlt_dec x y); [lra | reflexivity]. Qed.

Lemma fltb_spec (x y : R) : reflect (x < y) (fltb x y).
Proof. unfold fltb. destruct (Rlt_dec x y); constructor; assumption. Qed.

Lemma Int_part_bounds (x : R) : IZR (Int_part x) <= x < IZR (Int_part x) + 1.
Proof.
  destruct (base_Int_part x) as [H1 H2]. lra.
Qed.

Lemma Int_part_unique (x : R) (z : Z) : IZR z <= x < IZR z + 1 -> Int_part x = z.
Proof.
  intros H. symmetry. apply Int_part_spec. lra.
Qed.

Lemma Int_part_IZR (z : Z) : Int_part (IZR z) = z.
Proof. apply Int_part_unique. lra. Qed.

Lemma Int_part_nonneg (x : R) : 0 <= x -> (0 <= Int_part x)%Z.
Proof.
  intros H. destruct (Int_part_bounds x) as [_ H2].
  apply Z.lt_succ_r. apply lt_IZR. rewrite succ_IZR. lra.
Qed.

Lemma int_of_float_nonneg (x : R) : 0 <= x -> int_of_float x = Int_part x.
Proof. intros H. unfold int_of_float. destruct (Rle_dec 0 x); [reflexivity | contradiction]. Qed.

Lemma int_of_float_neg (x : R) : x < 0 -> int_of_float x = (- Int_part (- x))%Z.
Proof. intros H. unfold int_of_float. destruct (Rle_dec 0 x); [lra | reflexivity]. Qed.

Lemma int_of_float_small (x : R) : -1 < x < 1 -> int_of_float x = 0%Z.
Proof.
  intros H. destruct (Rle_dec 0 x) as [Hx | Hx].
  - rewrite int_of_float_nonneg by assumption. apply Int_part_unique. simpl. lra.
  - rewrite int_of_float_neg by lra.
    rewrite (Int_part_unique (- x) 0); [reflexivity | simpl; lra].
Qed.

Lemma int_of_float_IZR (z : Z) : int_of_float (IZR z) = z.
Proof.
  destruct (Rle_dec 0 (IZR z)) as [Hz | Hz].
  - rewrite int_of_float_nonneg by assumption. apply Int_part_IZR.
  - rewrite int_of_float_neg by lra.
    rewrite <- opp_IZR, Int_part_IZR. lia.
Qed.

(** The truncation is within one unit of its argument, on the side of zero. *)
Lemma int_of_float_bounds (x : R) :
  (0 <= x -> IZR (int_of_float x) <= x < IZR (int_of_float x) + 1) /\
  (x < 0 -> IZR (int_of_float x) - 1 < x <= IZR (int_of_float x)).
Proof.
  split; intros H.
  - rewrite int_of_float_nonneg by assumption. apply Int_part_bounds.
  - rewrite int_of_float_neg by assumption. rewrite opp_IZR.
    destruct (Int_part_bounds (- x)). lra.
Qed.

Lemma fmod_small (x y : R) : 0 < y -> - y < x < y -> fmod x y = x.
Proof.
  intros Hy Hx. unfold fmod.
  rewrite int_of_float_small; [simpl; lra |].
  split.
  - apply Rmult_lt_reg_r with y; [assumption |].
    unfold Rdiv. rewrite Rmult_assoc, Rinv_l by lra. lra.
  - apply Rmult_lt_reg_r with y; [assumption |].
    unfold Rdiv. rewrite Rmult_assoc, Rinv_l by lra. lra.
Qed.

(** [math.Mod] keeps the sign of its first argument and stays strictly below
    the modulus in magnitude. *)
Lemma fmod_range (x y : R) :
  0 < y ->
  (0 <= x -> 0 <= fmod x y < y) /\ (x < 0 -> - y < fmod x y <= 0).
Proof.
  intros Hy. unfold fmod.
  assert (Hq : x = y * (x / y)) by (field; lra).
  destruct (int_of_float_bounds (x / y)) as [Hpos Hneg].
  split; intros Hx.
  - assert (0 <= x / y) by (apply Rmult_le_pos; [lra | left; apply Rinv_0_lt_compat; lra]).
    specialize (Hpos H). nra.
  - assert (x / y < 0).
    { unfold Rdiv. assert (0 < / y) by (apply Rinv_0_lt_compat; lra). nra. }
    specialize (Hneg H). nra.
Qed.



Lemma int_add_small (a b : Z) :
  (min_int <= a + b <= max_int)%Z -> int_add a b = (a + b)%Z.
Proof. intros H. unfold int_add. apply wrap64_id. assumption. Qed.

Lemma int_sub_small (a b : Z) :
  (min_int <= a - b <= max_int)%Z -> int_sub a b = (a - b)%Z.
Proof. intros H. unfold int_sub. apply wrap64_id. assumption. Qed.

(** The remapped index [2 + k % 6] of a non-negative [k] is one of 2..7. *)
Lemma remap_range (k : Z) :
  (0 <= k)%Z ->
  int_add 2 (int_rem k 6) = (2 + k mod 6)%Z /\ (2 <= 2 + k mod 6 <= 7)%Z.
Proof.
  intros Hk. unfold int_rem.
  rewrite Z.rem_mod_nonneg by lia.
  assert (0 <= k mod 6 < 6)%Z by (apply Z.mod_pos_bound; lia).
  split; [| lia].
  apply int_add_small. unfold min_int, max_int. lia.
Qed.

(** ** [getMovement] *)

(** The six periodic recipes and the intro recipe are returned without a
    further call. *)
Lemma getMovement_direct (fuel : nat) (k : Z) (t : R) (i : Z) :
  (2 <= k <= 7)%Z -> exists a, getMovement (S fuel) k t i = Some a.
Proof.
  intros Hk.
  assert (Hcases : k = 2%Z \/ k = 3%Z \/ k = 4%Z \/ k = 5%Z \/ k = 6%Z \/ k = 7%Z)
    by lia.
  destruct Hcases as [-> | [-> | [-> | [-> | [-> | ->]]]]];
    cbn [getMovement Z.ltb Z.compare Pos.compare Pos.compare_cont andb];
    eexists; reflexivity.
Qed.

(** Above 7 the body is the [default] branch: one call on the wrapped index. *)
Lemma getMovement_default (fuel : nat) (index : Z) (t : R) (i : Z) :
  (7 < index)%Z ->
  getMovement (S fuel) index t i
  = getMovement fuel (int_add 2 (int_rem (int_sub index 2) 6)) t i.
Proof.
  intros H. cbn [getMovement].
  replace (index <? 2)%Z with false by (symmetry; apply Z.ltb_ge; lia).
  cbn [andb].
  destruct index as [| p | p]; try lia.
  do 4 (try (destruct p as [p | p |]); try lia; try reflexivity).
Qed.

Lemma wrapped_index (index : Z) :
  (7 < index <= max_int)%Z ->
  int_add 2 (int_rem (int_sub index 2) 6) = (2 + (index - 2) mod 6)%Z
  /\ (2 <= 2 + (index - 2) mod 6 <= 7)%Z.
Proof.
  intros H. rewrite int_sub_small by (unfold min_int, max_int in *; lia).
  apply remap_range. lia.
Qed.

(** After the intro remap of [t > 21] the index is one of 2..7. *)
Lemma intro_remap_range (t : R) :
  21 < t ->
  (2 <= int_add 2 (int_rem (int_of_float (t / 7)) 6) <= 7)%Z.
Proof.
  intros Ht.
  assert (H0 : 0 <= t / 7) by lra.
  rewrite int_of_float_nonneg by assumption.
  destruct (remap_range (Int_part (t / 7)) (Int_part_nonneg _ H0)) as [-> Hr].
  exact Hr.
Qed.

(** Once the clock has passed 21 seconds, indices below 2 are answered as
    the remapped index is. *)
Lemma getMovement_remap (fuel : nat) (index : Z) (t : R) (i : Z) :
  (index < 2)%Z -> 21 < t ->
  getMovement (S fuel) index t i
  = getMovement (S fuel) (int_add 2 (int_rem (int_of_float (t / 7)) 6)) t i.
Proof.
  intros Hi Ht.
  pose proof (intro_remap_range t Ht) as Hr.
  cbn [getMovement].
  replace (index <? 2)%Z with true by (symmetry; apply Z.ltb_lt; lia).
  replace (int_add 2 (int_rem (int_of_float (t / 7)) 6) <? 2)%Z with false
    by (symmetry; apply Z.ltb_ge; lia).
  rewrite (fltb_true 21 t Ht). reflexivity.
Qed.

(** Until then, indices 0 and 1 are the intro recipe. *)
Lemma getMovement_intro (fuel : nat) (index : Z) (t : R) (i : Z) :
  (0 <= index < 2)%Z -> t <= 21 ->
  getMovement (S fuel) index t i = Some (mkAnim (-5) 40 0 0).
Proof.
  intros Hi Ht.
  assert (Hc : index = 0%Z \/ index = 1%Z) by lia.
  destruct Hc as [-> | ->]; cbn [getMovement];
    rewrite (fltb_false 21 t Ht), andb_false_r; reflexivity.
Qed.

(** Indices 0..7 never reach the [default] branch. *)
Lemma getMovement_no_call (fuel : nat) (index : Z) (t : R) (i : Z) :
  (0 <= index <= 7)%Z -> exists a, getMovement (S fuel) index t i = Some a.
Proof.
  intros H.
  destruct (Z.ltb_spec index 2) as [Hlt | Hge].
  - destruct (Rlt_dec 21 t) as [Ht | Ht].
    + rewrite getMovement_remap by (lia || assumption).
      apply getMovement_direct. apply intro_remap_range. assumption.
    + eexists. apply getMovement_intro; [lia | lra].
  - apply getMovement_direct. lia.
Qed.

(** With no call left for the [default] branch, an index above 7 fails. *)
Lemma getMovement_needs_call (index : Z) (t : R) (i : Z) :
  (7 < index)%Z -> getMovement 1 index t i = None.
Proof. intros H. rewrite getMovement_default by assumption. reflexivity. Qed.

(** A larger budget does not change a result. *)
Lemma getMovement_fuel_mono (fuel : nat) :
  forall (index : Z) (t : R) (i : Z) (a : Anim),
    getMovement fuel index t i = Some a ->
    getMovement (S fuel) index t i = Some a.
Proof.
  induction fuel as [| fuel IH]; intros index t i a H; [discriminate |].
  revert H.
  cbn [getMovement].
  set (k := if (index <? 2)%Z && fltb 21 t then _ else index).
  clearbody k.
  destruct k as [| p | p]; try (intros H; exact H || (apply IH; exact H)).
  do 4 (try (destruct p as [p | p |]); try (intros H; exact H || (apply IH; exact H))).
Qed.

(** *** C7 *)

(** C7: for every [int] index above 7, every time [t] and every body slot
    [i], [getMovement(index, t, i)] returns what
    [getMovement(2 + (index-2) mod 6, t, i)] returns: with any budget of at
    least two calls the first is the second with one call less, and the
    second is a result. *)
Theorem getMovement_phase_wrap (n : nat) (index : Z) (t : R) (i : Z) :
  (7 < index <= max_int)%Z ->
  exists a : Anim,
    getMovement (S (S n)) index t i = Some a
    /\ getMovement (S n) (2 + (index - 2) mod 6) t i = Some a.
Proof.
  intros H.
  destruct (wrapped_index index H) as [Hw Hr].
  destruct (getMovement_direct n _ t i Hr) as [a Ha].
  exists a. split; [| exact Ha].
  rewrite getMovement_default by lia.
  rewrite Hw. exact Ha.
Qed.

Lemma getMovement_phase_wrap_witness :
  (7 < 8 <= max_int)%Z
  /\ exists a : Anim,
       getMovement 2 8 0 0 = Some a
       /\ getMovement 1 (2 + (8 - 2) mod 6) 0 0 = Some a.
Proof.
  split; [unfold max_int; lia |].
  apply (getMovement_phase_wrap 0 8 0 0). unfold max_int. lia.
Defined.

(** *** C10 *)

(** C10: for every [int] index that is not negative, every [t] and every
    [i], [getMovement] returns within a budget of two calls, that is after at
    most one recursive call; it makes that call exactly when the index is
    above 7, and then on [2 + (index-2) mod 6], which is one of 2..7 and is
    answered without a further call. *)
Theorem getMovement_terminates (index : Z) (t : R) (i : Z) :
  (0 <= index <= max_int)%Z ->
  (exists a : Anim, getMovement 2 index t i = Some a)
  /\ (getMovement 1 index t i = None <-> (7 < index)%Z)
  /\ ((7 < index)%Z ->
      (2 <= 2 + (index - 2) mod 6 <= 7)%Z
      /\ getMovement 2 index t i = getMovement 1 (2 + (index - 2) mod 6) t i
      /\ exists a : Anim,
           getMovement 1 (2 + (index - 2) mod 6) t i = Some a).
Proof.
  intros H.
  assert (Hrec : (7 < index)%Z ->
                 (2 <= 2 + (index - 2) mod 6 <= 7)%Z
                 /\ getMovement 2 index t i
                    = getMovement 1 (2 + (index - 2) mod 6) t i
                 /\ exists a : Anim,
                      getMovement 1 (2 + (index - 2) mod 6) t i = Some a).
  { intros H7.
    destruct (wrapped_index index (conj H7 (proj2 H))) as [Hw Hr].
    split; [exact Hr |]. split.
    - rewrite getMovement_default by assumption. rewrite Hw. reflexivity.
    - apply getMovement_direct. exact Hr. }
  split; [| split].
  - destruct (Z_lt_le_dec 7 index) as [H7 | H7].
    + destruct (Hrec H7) as (_ & -> & Ha). exact Ha.
    + apply getMovement_no_call. lia.
  - split.
    + intros Hnone. destruct (Z_lt_le_dec 7 index) as [H7 | H7]; [assumption |].
      destruct (getMovement_no_call 0 index t i) as [a Ha]; [lia |].
      congruence.
    + apply getMovement_needs_call.
  - exact Hrec.
Qed.

Lemma getMovement_terminates_witness :
  (0 <= 9 <= max_int)%Z
  /\ (exists a : Anim, getMovement 2 9 0 0 = Some a)
  /\ (getMovement 1 9 0 0 = None <-> (7 < 9)%Z)
  /\ ((7 < 9)%Z ->
      (2 <= 2 + (9 - 2) mod 6 <= 7)%Z
      /\ getMovement 2 9 0 0 = getMovement 1 (2 + (9 - 2) mod 6) 0 0
      /\ exists a : Anim, getMovement 1 (2 + (9 - 2) mod 6) 0 0 = Some a).
Proof.
  split; [unfold max_int; lia |].
  apply (getMovement_terminates 9 0 0). unfold max_int. lia.
Defined.

(** ** Shadow variant *)

Lemma shadowColor_cases (w : R) :
  let x := ((w - 0.5) * 10) / 2 in
  (0 <= x -> int_of_float x = floorZ x /\ (0 <= floorZ x)%Z)
  /\ (x < 0 -> (int_of_float x <= 0)%Z /\ (floorZ x < 0)%Z).
Proof.
  intros x. unfold floorZ. split; intros Hx.
  - split; [apply int_of_float_nonneg; assumption | apply Int_part_nonneg; assumption].
  - split.
    + rewrite int_of_float_neg by assumption.
      assert (0 <= Int_part (- x))%Z by (apply Int_part_nonneg; lra). lia.
    + destruct (Int_part_bounds x) as [Hlo _].
      apply lt_IZR. lra.
Qed.

Lemma shadowColor_eq_bucket (w : R) : shadowColor w = shadowBucket w.
Proof.
  unfold shadowColor, shadowBucket, clamp.
  rewrite int_sub_small by (unfold min_int, max_int; lia).
  destruct (shadowColor_cases w) as [Hpos Hneg]. cbv zeta in Hpos, Hneg.
  destruct (Rle_dec 0 (((w - 0.5) * 10) / 2)) as [Hx | Hx].
  - destruct (Hpos Hx) as [-> H0]. lia.
  - assert (Hlt : ((w - 0.5) * 10) / 2 < 0) by lra.
    destruct (Hneg Hlt) as [H1 H2]. lia.
Qed.

Lemma shadowColor_range (w : R) : (0 <= shadowColor w <= 3)%Z.
Proof.
  unfold shadowColor.
  rewrite int_sub_small by (unfold min_int, max_int; lia). lia.
Qed.

(** The array of four shadow images is never indexed outside its bounds. *)
Lemma shadowImage_defined (w : R) :
  shadowImage (shadowColor w) = Some (shadowColor w).
Proof.
  unfold shadowImage. pose proof (shadowColor_range w) as H.
  destruct (Z.leb_spec 0 (shadowColor w)); [| lia].
  destruct (Z.ltb_spec (shadowColor w) 4); [reflexivity | lia].
Qed.

(** *** C6 *)

(** C6: for every shadow scale [w] the variant computed by the code
    (truncate, clamp to 0..3, subtract from 3) is the bucket of the formula
    (floor, subtract from 3, clamp to 0..3), and it is one of 0, 1, 2, 3. *)
Theorem shadowColor_is_bucket (w : R) :
  shadowColor w = clamp (3 - floorZ (((w - 0.5) * 10) / 2)) 0 3
  /\ (shadowColor w = 0 \/ shadowColor w = 1 \/ shadowColor w = 2
      \/ shadowColor w = 3)%Z.
Proof.
  split; [apply shadowColor_eq_bucket |].
  pose proof (shadowColor_range w). lia.
Qed.

(** ** Displacement table *)

Lemma appendSamples_map (n : nat) (f : R -> R) (tbl : list R) :
  appendSamples n f tbl = tbl ++ map (fun i => f (INR i)) (seq 0 n).
Proof.
  unfold appendSamples. generalize 0%nat as lo. revert tbl.
  induction n as [| n IH]; intros tbl lo; cbn [seq fold_left map].
  - rewrite app_nil_r. reflexivity.
  - rewrite IH, <- app_assoc. reflexivity.
Qed.

Lemma precalcScrollX_table (g : Game) :
  scrollX (precalcScrollX g)
  = map waveA (seq 0 389) ++ map waveB (seq 0 68)
    ++ map waveA (seq 0 389) ++ map waveB (seq 0 189).
Proof.
  unfold precalcScrollX. cbv zeta.
  cbn [scrollX set_scrollXMod set_scrollX].
  rewrite !appendSamples_map. cbn [app].
  rewrite <- !app_assoc. reflexivity.
Qed.

Lemma precalcScrollX_length (g : Game) :
  List.length (scrollX (precalcScrollX g)) = 1035%nat.
Proof.
  rewrite precalcScrollX_table.
  rewrite !length_app, !length_map, !length_seq. reflexivity.
Qed.

Lemma segmentA_sample (g : Game) (i : nat) :
  (i < 389)%nat ->
  index (scrollX (precalcScrollX g)) (Z.of_nat i) = Some (waveA i).
Proof.
  intros Hi. unfold index.
  replace (Z.of_nat i <? 0)%Z with false by (symmetry; apply Z.ltb_ge; lia).
  rewrite Nat2Z.id, precalcScrollX_table.
  rewrite nth_error_app1 by (rewrite length_map, length_seq; assumption).
  rewrite nth_error_map, nth_error_seq.
  destruct (Nat.ltb_spec i 389) as [_ | Hge]; [reflexivity | lia].
Qed.

(** *** C8 *)

(** C8: the table built by [precalcScrollX] has exactly 1035 entries
    (389 + 68 + 389 + 189, also stored in [scrollXMod]); entry 0 is
    [20 sin 0 + 30 cos 0], which is 30; entry 388 is
    [20 sin (388 * 7/180 * pi) + 30 cos (388 * 3/180 * pi)]. *)
Theorem displacement_table_shape (g : Game) :
  List.length (scrollX (precalcScrollX g)) = (389 + 68 + 389 + 189)%nat
  /\ scrollXMod (precalcScrollX g) = 1035%Z
  /\ index (scrollX (precalcScrollX g)) 0 = Some (20 * sin 0 + 30 * cos 0)
  /\ 20 * sin 0 + 30 * cos 0 = 30
  /\ index (scrollX (precalcScrollX g)) 388
     = Some (20 * sin (388 * (7 / 180 * PI)) + 30 * cos (388 * (3 / 180 * PI))).
Proof.
  split; [apply precalcScrollX_length |].
  split.
  { change (scrollXMod (precalcScrollX g))
      with (Z.of_nat (List.length (scrollX (precalcScrollX g)))).
    rewrite precalcScrollX_length. reflexivity. }
  split.
  { change 0%Z with (Z.of_nat 0). rewrite segmentA_sample by lia.
    unfold waveA. cbn [INR]. rewrite !Rmult_0_l. reflexivity. }
  split.
  { rewrite sin_0, cos_0. lra. }
  change 388%Z with (Z.of_nat 388). rewrite segmentA_sample by lia.
  unfold waveA.
  replace (INR 388) with 388 by (rewrite INR_IZR_INZ; reflexivity).
  replace (7.0 / 180.0 * PI) with (7 / 180 * PI) by lra.
  replace (3.0 / 180.0 * PI) with (3 / 180 * PI) by lra.
  reflexivity.
Qed.

(** ** The ordering pass *)

(** Splits on every depth comparison that the goal still contains. *)
Ltac split_comparisons :=
  repeat match goal with
         | |- context [fltb ?a ?b] =>
           destruct (fltb_spec a b); cbn [bind nth_error assign Sprite.Z]
         end.

Lemma perm_of_0123 (p : list nat) :
  NoDup p -> (forall k, In k p <-> (k < 4)%nat) -> Permutation p [0; 1; 2; 3]%nat.
Proof.
  intros Hnd Hin. apply NoDup_Permutation; [assumption | |].
  - repeat (apply NoDup_cons; [cbn; lia |]); apply NoDup_nil.
  - intros k. rewrite Hin. cbn. lia.
Qed.

Ltac is_perm_0123 :=
  apply perm_of_0123;
  [ repeat (apply NoDup_cons; [cbn; lia |]); apply NoDup_nil
  | intros k; cbn; lia ].

(** The pass returns, and what it returns orders the four depths. *)
Lemma sortIndices_sorts (b0 b1 b2 b3 : Sprite.t) :
  exists order : list nat,
    sortIndices [b0; b1; b2; b3] = Some order
    /\ Permutation order [0; 1; 2; 3]%nat
    /\ nonIncreasing (depthsAlong [b0; b1; b2; b3] order).
Proof.
  unfold sortIndices, for_range, sortStep.
  cbn [seq fold_left Nat.sub Nat.add bind nth_error assign].
  split_comparisons;
    (eexists; split; [reflexivity |]; split;
     [ is_perm_0123
     | unfold depthsAlong, depthOf; cbn [map nth nonIncreasing];
       repeat split; lra ]).
Qed.

(** Resolves the depth comparisons of a goal whose depths are numerals. *)
Ltac eval_comparisons :=
  repeat match goal with
         | |- context [fltb ?a ?b] =>
           first [ rewrite (fltb_true a b) by lra
                 | rewrite (fltb_false a b) by lra ];
           cbn [bind nth_error assign Sprite.Z]
         end.

(** Depths that already decrease along the indices cause no swap. *)
Lemma sortIndices_ordered_input (b0 b1 b2 b3 : Sprite.t) :
  Sprite.Z b1 <= Sprite.Z b0 ->
  Sprite.Z b2 <= Sprite.Z b1 ->
  Sprite.Z b3 <= Sprite.Z b2 ->
  sortIndices [b0; b1; b2; b3] = Some [0; 1; 2; 3]%nat.
Proof.
  intros H1 H2 H3.
  unfold sortIndices, for_range, sortStep.
  cbn [seq fold_left Nat.sub Nat.add bind nth_error assign].
  eval_comparisons. reflexivity.
Qed.

(** Stability of an order of four entries, pair by pair. *)
Lemma stableOrder_four (balls : list Sprite.t) (p0 p1 p2 p3 : nat) :
  (depthOf balls p0 = depthOf balls p1 -> (p0 < p1)%nat) ->
  (depthOf balls p0 = depthOf balls p2 -> (p0 < p2)%nat) ->
  (depthOf balls p0 = depthOf balls p3 -> (p0 < p3)%nat) ->
  (depthOf balls p1 = depthOf balls p2 -> (p1 < p2)%nat) ->
  (depthOf balls p1 = depthOf balls p3 -> (p1 < p3)%nat) ->
  (depthOf balls p2 = depthOf balls p3 -> (p2 < p3)%nat) ->
  stableOrder balls [p0; p1; p2; p3].
Proof.
  intros H01 H02 H03 H12 H13 H23 a b ia ib Hab Ha Hb Heq.
  destruct a as [| [| [| [| a]]]]; cbn [nth_error] in Ha;
    try (destruct a; discriminate); injection Ha as <-;
    (destruct b as [| [| [| [| b]]]]; cbn [nth_error] in Hb;
     try (destruct b; discriminate); try lia; injection Hb as <-); auto.
Qed.

(** Uses the facts about ties whose premise follows from the context. *)
Ltac use_tie_facts :=
  repeat match goal with
         | H : ?x = ?y -> _ |- _ =>
           first [ specialize (H ltac:(lra)) | clear H ]
         end.

(** A swap carries a body over the bodies between the two positions; it
    passes a body of the same depth only when a strictly deeper body comes
    after both.  Without such a body, ties keep their order. *)
Lemma sortIndices_ties (b0 b1 b2 b3 : Sprite.t) :
  (Sprite.Z b0 = Sprite.Z b1 -> Sprite.Z b2 <= Sprite.Z b0) ->
  (Sprite.Z b0 = Sprite.Z b1 -> Sprite.Z b3 <= Sprite.Z b0) ->
  (Sprite.Z b0 = Sprite.Z b2 -> Sprite.Z b3 <= Sprite.Z b0) ->
  (Sprite.Z b1 = Sprite.Z b2 -> Sprite.Z b3 <= Sprite.Z b1) ->
  exists order : list nat,
    sortIndices [b0; b1; b2; b3] = Some order
    /\ stableOrder [b0; b1; b2; b3] order.
Proof.
  intros T012 T013 T023 T123.
  unfold sortIndices, for_range, sortStep.
  cbn [seq fold_left Nat.sub Nat.add bind nth_error assign].
  split_comparisons;
    (eexists; split; [reflexivity |];
     apply stableOrder_four; unfold depthOf; cbn [nth]; intros Heq;
     first [ lia | exfalso; use_tie_facts; lra ]).
Qed.

(** *** C5 *)

(** C5: for any array of four bodies the ordering pass returns an index
    sequence that is a permutation of 0, 1, 2, 3 and along which the depths
    do not increase. *)
Theorem sortIndices_permutation_nonincreasing (balls : list Sprite.t) :
  List.length balls = 4%nat ->
  exists order : list nat,
    sortIndices balls = Some order
    /\ Permutation order [0; 1; 2; 3]%nat
    /\ nonIncreasing (depthsAlong balls order).
Proof.
  intros Hlen.
  destruct balls as [| b0 [| b1 [| b2 [| b3 [| b4 rest]]]]]; try discriminate.
  apply sortIndices_sorts.
Qed.

Lemma sortIndices_permutation_nonincreasing_witness :
  List.length [atDepth 1; atDepth 1; atDepth 2; atDepth 0] = 4%nat
  /\ exists order : list nat,
       sortIndices [atDepth 1; atDepth 1; atDepth 2; atDepth 0] = Some order
       /\ Permutation order [0; 1; 2; 3]%nat
       /\ nonIncreasing
            (depthsAlong [atDepth 1; atDepth 1; atDepth 2; atDepth 0] order).
Proof.
  split; [reflexivity |].
  apply (sortIndices_permutation_nonincreasing
           [atDepth 1; atDepth 1; atDepth 2; atDepth 0]).
  reflexivity.
Defined.

(** *** C3 *)

(** C3, as stated, fails: on the depths 1, 1, 2, 0 the pass returns the
    order 2, 1, 0, 3, in which body 1 comes before body 0 although both have
    depth 1. *)
Lemma sortIndices_not_stable :
  sortIndices [atDepth 1; atDepth 1; atDepth 2; atDepth 0]
  = Some [2; 1; 0; 3]%nat
  /\ ~ stableOrder [atDepth 1; atDepth 1; atDepth 2; atDepth 0]
         [2; 1; 0; 3]%nat.
Proof.
  split.
  - unfold sortIndices, for_range, sortStep, atDepth.
    cbn [seq fold_left Nat.sub Nat.add bind nth_error assign Sprite.Z].
    eval_comparisons. reflexivity.
  - intros Hst.
    specialize (Hst 1%nat 2%nat 1%nat 0%nat).
    assert (1 < 0)%nat; [| lia].
    apply Hst; [lia | reflexivity | reflexivity | reflexivity].
Qed.

(** C3, amended: the pass swaps on a strict comparison, and a swap can
    carry a body over another of the same depth.  For every array of four
    bodies in which no body is strictly deeper than two bodies of equal
    depth that both come before it, the pass returns an order in which any
    two bodies of equal depth appear by increasing index. *)
Theorem sortIndices_stable_without_deeper_follower (b0 b1 b2 b3 : Sprite.t) :
  (forall a b c : nat,
      (a < b < c)%nat -> (c < 4)%nat ->
      depthOf [b0; b1; b2; b3] a = depthOf [b0; b1; b2; b3] b ->
      depthOf [b0; b1; b2; b3] c <= depthOf [b0; b1; b2; b3] a) ->
  exists order : list nat,
    sortIndices [b0; b1; b2; b3] = Some order
    /\ stableOrder [b0; b1; b2; b3] order.
Proof.
  intros H. apply sortIndices_ties; intros E.
  - apply (H 0 1 2)%nat; [lia | lia | exact E].
  - apply (H 0 1 3)%nat; [lia | lia | exact E].
  - apply (H 0 2 3)%nat; [lia | lia | exact E].
  - apply (H 1 2 3)%nat; [lia | lia | exact E].
Qed.

Lemma sortIndices_stable_without_deeper_follower_witness :
  (forall a b c : nat,
      (a < b < c)%nat -> (c < 4)%nat ->
      depthOf [atDepth 1; atDepth 2; atDepth 2; atDepth 0] a
      = depthOf [atDepth 1; atDepth 2; atDepth 2; atDepth 0] b ->
      depthOf [atDepth 1; atDepth 2; atDepth 2; atDepth 0] c
      <= depthOf [atDepth 1; atDepth 2; atDepth 2; atDepth 0] a)
  /\ exists order : list nat,
       sortIndices [atDepth 1; atDepth 2; atDepth 2; atDepth 0] = Some order
       /\ stableOrder [atDepth 1; atDepth 2; atDepth 2; atDepth 0] order.
Proof.
  assert (Hties : forall a b c : nat,
             (a < b < c)%nat -> (c < 4)%nat ->
             depthOf [atDepth 1; atDepth 2; atDepth 2; atDepth 0] a
             = depthOf [atDepth 1; atDepth 2; atDepth 2; atDepth 0] b ->
             depthOf [atDepth 1; atDepth 2; atDepth 2; atDepth 0] c
             <= depthOf [atDepth 1; atDepth 2; atDepth 2; atDepth 0] a).
  { intros a b c Hlt Hc.
    destruct a as [| [| [| a]]]; try lia;
      destruct b as [| [| [| b]]]; try lia;
      destruct c as [| [| [| [| c]]]]; try lia;
      unfold depthOf, atDepth; cbn [nth Sprite.Z]; lra. }
  split; [exact Hties |].
  apply (sortIndices_stable_without_deeper_follower
           (atDepth 1) (atDepth 2) (atDepth 2) (atDepth 0)).
  exact Hties.
Defined.

(** ** The floor offsets *)

Lemma wrapOnce_cases (period x : R) :
  (period < x -> x - period < 0 -> wrapOnce period x = x)
  /\ (period < x -> 0 <= x - period -> wrapOnce period x = x - period)
  /\ (x <= period -> x < 0 -> wrapOnce period x = x + period)
  /\ (x <= period -> 0 <= x -> wrapOnce period x = x).
Proof.
  unfold wrapOnce.
  destruct (fltb_spec period x) as [Hp | Hp].
  - destruct (fltb_spec (x - period) 0) as [H0 | H0];
      repeat split; intros; try lra.
  - destruct (fltb_spec x 0) as [H0 | H0];
      repeat split; intros; try lra.
Qed.

(** [drawChessboard] moves the offset by [xm * speed * 0.005]. *)
Lemma advanceXMove_step (g : Game) :
  xMove (advanceXMove g) = stepXMove (xMove g) (xm g * speed g * 0.005).
Proof. reflexivity. Qed.

Lemma drawChessboard_xMove (g : Game) :
  xMove (fst (drawChessboard g))
  = stepXMove (xMove g) (xm g * speed g * 0.005).
Proof. reflexivity. Qed.

(** A step of magnitude at most one period keeps the offset between 0 and
    the period, both ends included. *)
Lemma wrapOnce_keeps_range (period x step : R) :
  0 <= x <= period -> - period <= step <= period ->
  0 <= wrapOnce period (x + step) <= period.
Proof.
  intros Hx Hs.
  destruct (wrapOnce_cases period (x + step)) as (H1 & H2 & H3 & H4).
  destruct (Rlt_dec period (x + step)) as [Hp | Hp].
  - rewrite H2 by lra. lra.
  - destruct (Rlt_dec (x + step) 0) as [H0 | H0].
    + rewrite H3 by lra. lra.
    + rewrite H4 by lra. lra.
Qed.

Lemma stepXMove_keeps_range (x step : R) :
  0 <= x <= 32 -> -32 <= step <= 32 -> 0 <= stepXMove x step <= 32.
Proof. intros Hx Hs. apply wrapOnce_keeps_range; assumption. Qed.

(** The wrap leaves 32 itself in place and removes one period only. *)
Lemma stepXMove_lands_on_32 : stepXMove 31 1 = 32.
Proof.
  unfold stepXMove.
  destruct (wrapOnce_cases 32 (31 + 1)) as (_ & _ & _ & H4).
  rewrite H4 by lra. lra.
Qed.

Lemma stepXMove_large_step : stepXMove 0 100 = 68.
Proof.
  unfold stepXMove.
  destruct (wrapOnce_cases 32 (0 + 100)) as (_ & H2 & _ & _).
  rewrite H2 by lra. lra.
Qed.

(** *** C2 *)

(** C2, as stated, fails: from the offset 31, ten thousand frames of step 1
    put the offset on 32 after the first frame, which is not below 32 (the
    code wraps only above 32); and one frame of step 100 from offset 0 gives
    68, since a single period is removed. *)
Lemma xMove_leaves_half_open_range :
  (0 <= 31 < 32
   /\ List.length (repeat 1 tenThousand) = Z.to_nat 10000
   /\ ~ Forall (fun x => 0 <= x < 32) (xMoveTrace 31 (repeat 1 tenThousand)))
  /\ stepXMove 0 100 = 68.
Proof.
  split; [| apply stepXMove_large_step].
  split; [lra |]. split; [apply repeat_length |].
  change tenThousand with (S (Z.to_nat 9999)).
  cbn [repeat xMoveTrace].
  intros HF. apply Forall_inv in HF.
  rewrite stepXMove_lands_on_32 in HF. lra.
Qed.

(** C2, amended: from any offset in the closed interval from 0 to 32, any
    sequence of frames (of any length, so also ten thousand) whose steps
    have magnitude at most 32 keeps the offset in that closed interval after
    every frame. *)
Theorem xMove_stays_in_closed_range (steps : list R) :
  forall x : R,
    0 <= x <= 32 ->
    Forall (fun step => -32 <= step <= 32) steps ->
    Forall (fun x' => 0 <= x' <= 32) (xMoveTrace x steps).
Proof.
  induction steps as [| step rest IH]; intros x Hx Hsteps; cbn [xMoveTrace].
  - constructor.
  - inversion Hsteps as [| s l Hstep Hrest]; subst.
    pose proof (stepXMove_keeps_range x step Hx Hstep) as Hnext.
    constructor; [exact Hnext | apply IH; assumption].
Qed.

Lemma xMove_stays_in_closed_range_witness :
  (0 <= 31 <= 32)
  /\ Forall (fun step => -32 <= step <= 32) [1; -32]
  /\ Forall (fun x' => 0 <= x' <= 32) (xMoveTrace 31 [1; -32]).
Proof.
  assert (Hx : 0 <= 31 <= 32) by lra.
  assert (Hs : Forall (fun step => -32 <= step <= 32) [1; -32])
    by (repeat constructor; lra).
  split; [exact Hx |]. split; [exact Hs |].
  exact (xMove_stays_in_closed_range [1; -32] 31 Hx Hs).
Defined.

(** ** Loops *)

Lemma fold_bind_none {S : Type} (body : nat -> S -> option S) (l : list nat) :
  fold_left (fun acc i => s' <- acc ;; body i s') l None = None.
Proof. induction l as [| i l IH]; [reflexivity | exact IH]. Qed.

Lemma bind_Some {A B : Type} (m : option A) (k : A -> option B) (b : B) :
  bind m k = Some b -> exists a : A, m = Some a /\ k a = Some b.
Proof.
  destruct m as [a |]; cbn [bind]; intros H; [| discriminate].
  exists a. split; [reflexivity | exact H].
Qed.

(** A property kept by every iteration holds after the loop. *)
Lemma for_range_invariant {S : Type} (P : S -> Prop) (lo hi : nat)
  (body : nat -> S -> option S) (s s' : S) :
  (forall i x y, P x -> body i x = Some y -> P y) ->
  P s -> for_range lo hi body s = Some s' -> P s'.
Proof.
  intros Hbody. unfold for_range.
  generalize (seq lo (hi - lo)) as l. intros l. revert s.
  induction l as [| i l IH]; intros s Hs Hrun; cbn [fold_left] in Hrun.
  - injection Hrun as <-. exact Hs.
  - cbn [bind] in Hrun.
    destruct (body i s) as [y |] eqn:Hy.
    + apply (IH y); [apply (Hbody i s y Hs Hy) | exact Hrun].
    + rewrite fold_bind_none in Hrun. discriminate.
Qed.

(** ** The frame loop and the floor *)

Lemma cos_abs_le_1 (x : R) : Rabs (cos x) <= 1.
Proof. apply Rabs_le. destruct (COS_bound x). lra. Qed.

Lemma Rabs_le_between (x b : R) : Rabs x <= b -> - b <= x <= b.
Proof. unfold Rabs. destruct (Rcase_abs x); lra. Qed.

Lemma increment_bound (a b : R) :
  Rabs a <= 128 -> Rabs b <= 1 -> Rabs (a * b * 0.005) <= 0.64.
Proof.
  intros Ha Hb.
  replace (a * b * 0.005) with (0.005 * (a * b)) by ring.
  rewrite !Rabs_mult.
  rewrite (Rabs_pos_eq 0.005) by lra.
  pose proof (Rabs_pos a). pose proof (Rabs_pos b). nra.
Qed.

Lemma floorBounded_init : floorBounded (Init NewGame).
Proof.
  unfold floorBounded. cbn [Init precalcScrollX xm speed xMove NewGame
                            set_scrollX set_scrollXMod].
  rewrite Rabs_R0, Rabs_R1. lra.
Qed.

(** In the main phase [Update] sets the two speeds from the frame counters. *)
Lemma Update_main (g : Game) :
  jump g = true ->
  exists g' : Game,
    Update g = Some g'
    /\ xm g' = 128 * cos (vbl2 g / 40)
    /\ speed g' = -1 * cos (vbl g / 40)
    /\ xMove g' = xMove g
    /\ jump g' = true.
Proof.
  intros Hj. unfold Update. rewrite Hj. cbn [negb].
  eexists. split; [reflexivity |].
  cbn. rewrite Hj. repeat split; reflexivity.
Qed.

Lemma Update_floorBounded (g g' : Game) :
  floorBounded g -> Update g = Some g' -> floorBounded g'.
Proof.
  intros Hb Hu. destruct (jump g) eqn:Hj.
  - destruct (Update_main g Hj) as (g1 & Hu1 & Hxm & Hsp & Hx & _).
    assert (g1 = g') by congruence. subst g1.
    unfold floorBounded. rewrite Hxm, Hsp, Hx.
    destruct Hb as (_ & _ & Hrange).
    split; [| split; [| exact Hrange]].
    + rewrite Rabs_mult, (Rabs_pos_eq 128) by lra.
      pose proof (cos_abs_le_1 (vbl2 g / 40)). lra.
    + rewrite Rabs_mult. replace (Rabs (-1)) with 1.
      * pose proof (cos_abs_le_1 (vbl g / 40)). lra.
      * rewrite Rabs_left by lra. lra.
  - unfold Update in Hu. rewrite Hj in Hu. cbn [negb] in Hu.
    destruct (int_of_float (scrollX1 g / IZR fontWidth)
              <? Z.of_nat (String.length (text1 g)))%Z.
    + cbn [bind] in Hu.
      destruct (byteAt (text1 g) (int_of_float (scrollX1 g / IZR fontWidth)))
        as [c |]; [| discriminate].
      cbn [bind] in Hu. injection Hu as <-.
      destruct (Ascii.eqb c backslash); exact Hb.
    + cbn [bind] in Hu. injection Hu as <-. exact Hb.
Qed.

Lemma drawDocBody_floorView (fuel : nat) (t : R) (i : nat) (s s' : DocLoop) :
  drawDocBody fuel t i s = Some s' ->
  floorView (loopGame s') = floorView (loopGame s)
  /\ jump (loopGame s') = jump (loopGame s).
Proof.
  unfold drawDocBody. intros H.
  destruct (animAt fuel (overWriteFirstTwoWaveforms (loopGame s)) t i);
    [| discriminate].
  cbn [bind] in H. injection H as <-. split; reflexivity.
Qed.

Lemma drawDoc_floorView (fuel : nat) (t : R) (g g' : Game) (fr : DocFrame) :
  drawDoc fuel t g = Some (g', fr) ->
  floorView g' = floorView g /\ jump g' = jump g.
Proof.
  unfold drawDoc. intros H.
  set (g0 := endWarmUp t g) in H.
  assert (H0 : floorView g0 = floorView g /\ jump g0 = jump g).
  { subst g0. unfold endWarmUp.
    destruct (overWriteFirstTwoWaveforms g && fltb (ANIM_DURATION * 3) t);
      split; reflexivity. }
  destruct (for_range 0 4 (drawDocBody fuel t) _) as [s |] eqn:Hloop;
    [| discriminate].
  cbn [bind] in H.
  assert (Hs : floorView (loopGame s) = floorView g0
               /\ jump (loopGame s) = jump g0).
  { apply (for_range_invariant
             (fun x => floorView (loopGame x) = floorView g0
                       /\ jump (loopGame x) = jump g0) _ _ _ _ s
             ) in Hloop; [exact Hloop | | split; reflexivity].
    intros i x y [Hx1 Hx2] Hy.
    destruct (drawDocBody_floorView _ _ _ _ _ Hy) as [Hy1 Hy2].
    split; congruence. }
  destruct (sortIndices (balls s)) as [indices |]; [| discriminate].
  cbn [bind] in H.
  destruct (drawEach (drawShadow (ballShadows s)) indices); [| discriminate].
  cbn [bind] in H.
  destruct (drawEach (drawBall (balls s)) indices); [| discriminate].
  cbn [bind] in H. injection H as <- _.
  destruct H0, Hs. split; congruence.
Qed.

Lemma drawScroller_floorView (g g' : Game) (bands : list (R * R)) :
  drawScroller g = Some (g', bands) ->
  floorView g' = floorView g /\ jump g' = jump g.
Proof.
  unfold drawScroller. intros H.
  destruct (drawScrollText (text2 g) (scrollX2 g)) as [x2 |]; [| discriminate].
  cbn [bind] in H.
  destruct (for_range 0 25 _ _) as [pass1 |]; [| discriminate].
  cbn [bind] in H.
  destruct (for_range 0 25 _ _) as [pass2 |]; [| discriminate].
  cbn [bind] in H. injection H as <- _. split; reflexivity.
Qed.

Lemma drawChessboard_floorBounded (g : Game) :
  floorBounded g -> floorBounded (fst (drawChessboard g)).
Proof.
  intros (Hxm & Hsp & Hx).
  unfold floorBounded.
  rewrite drawChessboard_xMove.
  change (xm (fst (drawChessboard g))) with (xm g).
  change (speed (fst (drawChessboard g))) with (speed g).
  split; [exact Hxm |]. split; [exact Hsp |].
  pose proof (increment_bound _ _ Hxm Hsp) as Hinc.
  apply stepXMove_keeps_range; [exact Hx |].
  apply Rabs_le_between in Hinc. lra.
Qed.

Lemma floorBounded_view (g g' : Game) :
  floorView g' = floorView g -> floorBounded g -> floorBounded g'.
Proof.
  unfold floorView, floorBounded. intros Hv Hb.
  injection Hv as -> -> ->. exact Hb.
Qed.

Lemma Draw_intro (fuel : nat) (t : R) (g g' : Game) (f : Frame) :
  jump g = false ->
  Draw fuel t g = Some (g', f) ->
  exists x1 : R, g' = set_scrollX1 g x1.
Proof.
  intros Hj Hd. unfold Draw in Hd. rewrite Hj in Hd. cbn [negb] in Hd.
  apply bind_Some in Hd as (x1 & _ & Hd).
  injection Hd as <- _. exists x1. reflexivity.
Qed.

(** In the main phase a frame is the floor, then the scroller, then the
    bodies. *)
Lemma Draw_main_eq (fuel : nat) (t : R) (g : Game) :
  jump g = true ->
  Draw fuel t g
  = ('(g2, bands) <- drawScroller (fst (drawChessboard g)) ;;
     '(g3, d) <- drawDoc fuel t g2 ;;
     Some (g3, mkFrame (Some (snd (drawChessboard g))) bands (Some d))).
Proof. intros Hj. unfold Draw. rewrite Hj. reflexivity. Qed.

Lemma Draw_main (fuel : nat) (t : R) (g g' : Game) (f : Frame) :
  jump g = true ->
  Draw fuel t g = Some (g', f) ->
  exists (g2 : Game) (bands : list (R * R)) (d : DocFrame),
    drawScroller (fst (drawChessboard g)) = Some (g2, bands)
    /\ drawDoc fuel t g2 = Some (g', d)
    /\ f = mkFrame (Some (snd (drawChessboard g))) bands (Some d).
Proof.
  intros Hj Hd. rewrite Draw_main_eq in Hd by assumption.
  apply bind_Some in Hd as ([g2 bands] & Hs & Hd).
  apply bind_Some in Hd as ([g3 d] & Hdoc & Hd).
  injection Hd as <- <-.
  exists g2, bands, d. repeat split; assumption.
Qed.

Lemma Draw_floorBounded (fuel : nat) (t : R) (g g' : Game) (f : Frame) :
  floorBounded g -> Draw fuel t g = Some (g', f) -> floorBounded g'.
Proof.
  intros Hb Hd.
  destruct (jump g) eqn:Hj.
  - destruct (Draw_main fuel t g g' f Hj Hd) as (g2 & bands & d & Hs & Hdoc & _).
    destruct (drawScroller_floorView _ _ _ Hs) as [Hv2 _].
    destruct (drawDoc_floorView _ _ _ _ _ Hdoc) as [Hv3 _].
    apply (floorBounded_view g2); [exact Hv3 |].
    apply (floorBounded_view (fst (drawChessboard g))); [exact Hv2 |].
    apply drawChessboard_floorBounded. exact Hb.
  - destruct (Draw_intro fuel t g g' f Hj Hd) as [x1 ->]. exact Hb.
Qed.

Lemma reachable_floorBounded (g : Game) : reachable g -> floorBounded g.
Proof.
  induction 1 as [| g g' _ IH Hu | fuel t g g' f _ IH Hd].
  - apply floorBounded_init.
  - apply (Update_floorBounded g); assumption.
  - apply (Draw_floorBounded fuel t g g' f); assumption.
Qed.


(** ** The bodies *)

(** The spin speed that [getMovement] returns does not depend on the body. *)
Lemma getMovement_spin_same (fuel : nat) :
  forall (index : Z) (t : R) (i j : Z),
    option_map SpinSpeed (getMovement fuel index t i)
    = option_map SpinSpeed (getMovement fuel index t j).
Proof.
  induction fuel as [| fuel IH]; intros index t i j; [reflexivity |].
  cbn [getMovement].
  set (k := if (index <? 2)%Z && fltb 21 t then _ else index).
  clearbody k.
  destruct k as [| p | p]; try reflexivity; try apply IH.
  do 4 (try (destruct p as [p | p |]); try reflexivity; try apply IH).
Qed.

(** Every spin speed of the profile is one of -5, 5, -7, -8. *)
Lemma getMovement_spin_range (fuel : nat) :
  forall (index : Z) (t : R) (i : Z) (a : Anim),
    getMovement fuel index t i = Some a -> -8 <= SpinSpeed a <= 5.
Proof.
  induction fuel as [| fuel IH]; intros index t i a; [discriminate |].
  cbn [getMovement].
  set (k := if (index <? 2)%Z && fltb 21 t then _ else index).
  clearbody k.
  destruct k as [| p | p];
    try (intros H; injection H as <-; cbn [SpinSpeed]; lra);
    try apply IH.
  do 4 (try (destruct p as [p | p |]);
        try (intros H; injection H as <-; cbn [SpinSpeed]; lra);
        try apply IH).
Qed.

(** With two calls in the budget every index an [int] can hold from 0 up
    is answered. *)
Lemma getMovement_returns (n : nat) (index : Z) (t : R) (i : Z) :
  (0 <= index <= max_int)%Z ->
  exists a : Anim, getMovement (S (S n)) index t i = Some a.
Proof.
  intros H. destruct (Z_lt_le_dec 7 index) as [H7 | H7].
  - destruct (wrapped_index index (conj H7 (proj2 H))) as [Hw Hr].
    rewrite getMovement_default, Hw by assumption.
    apply getMovement_direct. exact Hr.
  - apply getMovement_no_call. lia.
Qed.

(** From time 0 on, the frame's animation index is one of 2..7. *)
Lemma animIndexAt_range (overWrite : bool) (t : R) :
  0 <= t -> (2 <= animIndexAt overWrite t <= 7)%Z.
Proof.
  intros Ht. unfold animIndexAt.
  assert (H0 : 0 <= t / ANIM_DURATION) by (unfold ANIM_DURATION; lra).
  rewrite int_of_float_nonneg by assumption.
  pose proof (Int_part_nonneg _ H0) as Hk.
  set (k := Int_part (t / ANIM_DURATION)) in *.
  destruct (remap_range k Hk) as [-> Hr].
  unfold int_rem. rewrite Z.rem_mod_nonneg by lia.
  assert (0 <= k mod 8 < 8)%Z by (apply Z.mod_pos_bound; lia).
  destruct overWrite; cbn [negb andb].
  - destruct (Z.ltb_spec (k mod 8) 2); lia.
  - destruct (Z.ltb_spec (k mod 8) 2) as [Hlt | Hge].
    + destruct (Z.ltb_spec (2 + k mod 6) 2); lia.
    + lia.
Qed.

(** The blend weight is between 0 and 1 from time 0 on. *)
Lemma alphaAt_range (t : R) : 0 <= t -> 0 <= alphaAt t <= 1.
Proof.
  intros Ht. unfold alphaAt.
  assert (H0 : 0 <= t / ANIM_DURATION) by (unfold ANIM_DURATION; lra).
  destruct (fmod_range (t / ANIM_DURATION) 1 Rlt_0_1) as [Hpos _].
  specialize (Hpos H0).
  unfold Rmin. destruct (Rle_dec 1 _); unfold ANIM_DURATION in *; lra.
Qed.

Lemma blend_spin_range (a b : Anim) (alpha : R) :
  -8 <= SpinSpeed a <= 5 -> -8 <= SpinSpeed b <= 5 -> 0 <= alpha <= 1 ->
  -8 <= SpinSpeed (blendAnim a b alpha) <= 5.
Proof. intros Ha Hb Hal. cbn [blendAnim SpinSpeed]. nra. Qed.

(** From time 0 on the blended parameters of every body exist, and their
    spin speed is between -8 and 5. *)
Lemma animAt_returns (n : nat) (overWrite : bool) (t : R) (i : nat) :
  0 <= t ->
  exists anim : Anim,
    animAt (S (S n)) overWrite t i = Some anim /\ -8 <= SpinSpeed anim <= 5.
Proof.
  intros Ht. unfold animAt.
  pose proof (animIndexAt_range overWrite t Ht) as Hr.
  destruct (getMovement_returns n (animIndexAt overWrite t) t (Z.of_nat i))
    as [a Ha]; [unfold max_int; lia |].
  assert (Hnext : int_add (animIndexAt overWrite t) 1
                  = (animIndexAt overWrite t + 1)%Z)
    by (apply int_add_small; unfold min_int, max_int; lia).
  destruct (getMovement_returns n (animIndexAt overWrite t + 1) t (Z.of_nat i))
    as [b Hb]; [unfold max_int; lia |].
  rewrite Ha, Hnext, Hb. cbn [bind].
  eexists. split; [reflexivity |].
  apply blend_spin_range;
    [ apply (getMovement_spin_range _ _ _ _ _ Ha)
    | apply (getMovement_spin_range _ _ _ _ _ Hb)
    | apply alphaAt_range; assumption ].
Qed.

(** The blended spin speed is the same for every body of a frame. *)
Lemma animAt_spin_same (fuel : nat) (overWrite : bool) (t : R) (i j : nat)
  (a b : Anim) :
  animAt fuel overWrite t i = Some a ->
  animAt fuel overWrite t j = Some b ->
  SpinSpeed a = SpinSpeed b.
Proof.
  unfold animAt. intros Ha Hb.
  apply bind_Some in Ha as (a1 & Ha1 & Ha).
  apply bind_Some in Ha as (a2 & Ha2 & Ha).
  apply bind_Some in Hb as (b1 & Hb1 & Hb).
  apply bind_Some in Hb as (b2 & Hb2 & Hb).
  injection Ha as <-. injection Hb as <-.
  pose proof (getMovement_spin_same fuel (animIndexAt overWrite t) t
                (Z.of_nat i) (Z.of_nat j)) as H1.
  pose proof (getMovement_spin_same fuel (int_add (animIndexAt overWrite t) 1) t
                (Z.of_nat i) (Z.of_nat j)) as H2.
  rewrite Ha1, Hb1 in H1. rewrite Ha2, Hb2 in H2.
  cbn [option_map] in H1, H2. injection H1 as H1. injection H2 as H2.
  cbn [blendAnim SpinSpeed]. rewrite H1, H2. reflexivity.
Qed.

(** What one iteration of the body loop does. *)
Lemma drawDocBody_spec (fuel : nat) (t : R) (i : nat) (s s' : DocLoop) :
  drawDocBody fuel t i s = Some s' ->
  exists anim : Anim,
    animAt fuel (overWriteFirstTwoWaveforms (loopGame s)) t i = Some anim
    /\ let angle :=
         advanceRadians (currentRadians (loopGame s)) (SpinSpeed anim) in
       currentRadians (loopGame s') = angle
       /\ overWriteFirstTwoWaveforms (loopGame s')
          = overWriteFirstTwoWaveforms (loopGame s)
       /\ balls s' = assign (balls s) i (ballAt anim i angle)
       /\ ballShadows s' = assign (ballShadows s) i (shadowAt anim i angle)
       /\ spinAngles s' = spinAngles s ++ [angle].
Proof.
  unfold drawDocBody. intros H.
  apply bind_Some in H as (anim & Hanim & H).
  exists anim. split; [exact Hanim |].
  injection H as <-. cbv zeta. repeat split; reflexivity.
Qed.

Lemma drawDocBody_returns (fuel : nat) (t : R) (i : nat) (s : DocLoop)
  (anim : Anim) :
  animAt fuel (overWriteFirstTwoWaveforms (loopGame s)) t i = Some anim ->
  exists s' : DocLoop, drawDocBody fuel t i s = Some s'.
Proof.
  intros H. unfold drawDocBody. rewrite H. cbn [bind]. eexists. reflexivity.
Qed.

(** The loop over the four bodies, one iteration after the other. *)
Lemma for_range_0_4 {S : Type} (body : nat -> S -> option S) (s : S) :
  for_range 0 4 body s
  = (s1 <- body 0%nat s ;; s2 <- body 1%nat s1 ;;
     s3 <- body 2%nat s2 ;; body 3%nat s3).
Proof.
  unfold for_range. cbn [seq Nat.sub fold_left bind].
  destruct (body 0%nat s) as [s1 |]; [| reflexivity]. cbn [bind].
  destruct (body 1%nat s1) as [s2 |]; [| reflexivity]. cbn [bind].
  destruct (body 2%nat s2) as [s3 |]; reflexivity.
Qed.

(** The state of the body loop after a frame that starts from [g0]. *)
Lemma body_loop_spec (fuel : nat) (t : R) (g0 : Game) (zs : list Sprite.t)
  (s : DocLoop) :
  for_range 0 4 (drawDocBody fuel t) (mkDocLoop g0 zs zs []) = Some s ->
  exists a0 a1 a2 a3 : Anim,
    animAt fuel (overWriteFirstTwoWaveforms g0) t 0 = Some a0
    /\ animAt fuel (overWriteFirstTwoWaveforms g0) t 1 = Some a1
    /\ animAt fuel (overWriteFirstTwoWaveforms g0) t 2 = Some a2
    /\ animAt fuel (overWriteFirstTwoWaveforms g0) t 3 = Some a3
    /\ let r0 := advanceRadians (currentRadians g0) (SpinSpeed a0) in
       let r1 := advanceRadians r0 (SpinSpeed a1) in
       let r2 := advanceRadians r1 (SpinSpeed a2) in
       let r3 := advanceRadians r2 (SpinSpeed a3) in
       spinAngles s = [r0; r1; r2; r3]
       /\ currentRadians (loopGame s) = r3
       /\ balls s
          = assign (assign (assign (assign zs 0 (ballAt a0 0 r0))
                              1 (ballAt a1 1 r1)) 2 (ballAt a2 2 r2))
              3 (ballAt a3 3 r3)
       /\ ballShadows s
          = assign (assign (assign (assign zs 0 (shadowAt a0 0 r0))
                              1 (shadowAt a1 1 r1)) 2 (shadowAt a2 2 r2))
              3 (shadowAt a3 3 r3).
Proof.
  rewrite for_range_0_4. intros H.
  apply bind_Some in H as (s1 & H1 & H).
  apply bind_Some in H as (s2 & H2 & H).
  apply bind_Some in H as (s3 & H3 & H4).
  apply drawDocBody_spec in H1 as (a0 & Ha0 & Hr0 & Ho0 & Hb0 & Hs0 & Hg0).
  apply drawDocBody_spec in H2 as (a1 & Ha1 & Hr1 & Ho1 & Hb1 & Hs1 & Hg1).
  apply drawDocBody_spec in H3 as (a2 & Ha2 & Hr2 & Ho2 & Hb2 & Hs2 & Hg2).
  apply drawDocBody_spec in H4 as (a3 & Ha3 & Hr3 & Ho3 & Hb3 & Hs3 & Hg3).
  cbn [loopGame balls ballShadows spinAngles] in *.
  exists a0, a1, a2, a3.
  rewrite Ho2, Ho1, Ho0 in Ha3. rewrite Ho1, Ho0 in Ha2. rewrite Ho0 in Ha1.
  repeat split; try assumption.
  - rewrite Hg3, Hg2, Hg1, Hg0, Hr2, Hr1, Hr0. reflexivity.
  - rewrite Hr3, Hr2, Hr1, Hr0. reflexivity.
  - rewrite Hb3, Hb2, Hb1, Hb0, Hr2, Hr1, Hr0. reflexivity.
  - rewrite Hs3, Hs2, Hs1, Hs0, Hr2, Hr1, Hr0. reflexivity.
Qed.

Lemma endWarmUp_keeps (t : R) (g : Game) :
  currentRadians (endWarmUp t g) = currentRadians g
  /\ jump (endWarmUp t g) = jump g.
Proof.
  unfold endWarmUp.
  destruct (overWriteFirstTwoWaveforms g && fltb (ANIM_DURATION * 3) t);
    split; reflexivity.
Qed.

(** What a frame of [drawDoc] computes: the four blended recipes share one
    spin speed, and body [i] is rotated by the accumulated rotation as it
    stands after [i + 1] advances. *)
Lemma drawDoc_frame (fuel : nat) (t : R) (g g' : Game) (fr : DocFrame) :
  drawDoc fuel t g = Some (g', fr) ->
  exists a0 a1 a2 a3 : Anim,
    animAt fuel (overWriteFirstTwoWaveforms (endWarmUp t g)) t 0 = Some a0
    /\ animAt fuel (overWriteFirstTwoWaveforms (endWarmUp t g)) t 1 = Some a1
    /\ animAt fuel (overWriteFirstTwoWaveforms (endWarmUp t g)) t 2 = Some a2
    /\ animAt fuel (overWriteFirstTwoWaveforms (endWarmUp t g)) t 3 = Some a3
    /\ SpinSpeed a1 = SpinSpeed a0
    /\ SpinSpeed a2 = SpinSpeed a0
    /\ SpinSpeed a3 = SpinSpeed a0
    /\ let r0 := advanceRadians (currentRadians g) (SpinSpeed a0) in
       let r1 := advanceRadians r0 (SpinSpeed a0) in
       let r2 := advanceRadians r1 (SpinSpeed a0) in
       let r3 := advanceRadians r2 (SpinSpeed a0) in
       frameAngles fr = [r0; r1; r2; r3]
       /\ frameBalls fr
          = [ballAt a0 0 r0; ballAt a1 1 r1; ballAt a2 2 r2; ballAt a3 3 r3]
       /\ frameShadows fr
          = [shadowAt a0 0 r0; shadowAt a1 1 r1; shadowAt a2 2 r2;
             shadowAt a3 3 r3]
       /\ sortIndices (frameBalls fr) = Some (frameOrder fr)
       /\ currentRadians g' = r3.
Proof.
  unfold drawDoc. cbv zeta. intros H.
  apply bind_Some in H as (s & Hloop & H).
  apply bind_Some in H as (indices & Hsort & H).
  apply bind_Some in H as (shadowCalls & _ & H).
  apply bind_Some in H as (ballCalls & _ & H).
  injection H as <- <-.
  apply body_loop_spec in Hloop
    as (a0 & a1 & a2 & a3 & H0 & H1 & H2 & H3 & Hang & Hrad & Hb & Hs).
  destruct (endWarmUp_keeps t g) as [Hcur _]. rewrite Hcur in *.
  pose proof (animAt_spin_same _ _ _ _ _ _ _ H1 H0) as E1.
  pose proof (animAt_spin_same _ _ _ _ _ _ _ H2 H0) as E2.
  pose proof (animAt_spin_same _ _ _ _ _ _ _ H3 H0) as E3.
  rewrite E1, E2, E3 in *.
  exists a0, a1, a2, a3.
  cbn [frameAngles frameBalls frameShadows frameOrder].
  cbn [assign] in Hb, Hs.
  repeat split; assumption.
Qed.

(** Drawing along an order that names existing bodies does not fail. *)
Lemma drawEach_shadows (shadows : list Sprite.t) (order : list nat) :
  (forall k, In k order -> (k < List.length shadows)%nat) ->
  exists calls, drawEach (drawShadow shadows) order = Some calls.
Proof.
  induction order as [| k rest IH]; intros Hin; cbn [drawEach].
  - eexists. reflexivity.
  - destruct IH as [cs Hcs]; [intros j Hj; apply Hin; right; exact Hj |].
    assert (Hk : (k < List.length shadows)%nat) by (apply Hin; left; reflexivity).
    apply nth_error_Some in Hk.
    unfold drawShadow at 1.
    destruct (nth_error shadows k) as [s |]; [| congruence].
    cbn [bind]. rewrite shadowImage_defined. cbn [bind].
    rewrite Hcs. cbn [bind]. eexists. reflexivity.
Qed.

Lemma drawEach_balls (bs : list Sprite.t) (order : list nat) :
  (forall k, In k order -> (k < List.length bs)%nat) ->
  exists calls, drawEach (drawBall bs) order = Some calls.
Proof.
  induction order as [| k rest IH]; intros Hin; cbn [drawEach].
  - eexists. reflexivity.
  - destruct IH as [cs Hcs]; [intros j Hj; apply Hin; right; exact Hj |].
    assert (Hk : (k < List.length bs)%nat) by (apply Hin; left; reflexivity).
    apply nth_error_Some in Hk.
    unfold drawBall at 1.
    destruct (nth_error bs k) as [s |]; [| congruence].
    cbn [bind]. rewrite Hcs. cbn [bind]. eexists. reflexivity.
Qed.

Lemma body_loop_returns (n : nat) (t : R) (g0 : Game) (zs : list Sprite.t) :
  0 <= t ->
  exists s : DocLoop,
    for_range 0 4 (drawDocBody (S (S n)) t) (mkDocLoop g0 zs zs []) = Some s.
Proof.
  intros Ht. rewrite for_range_0_4.
  assert (Hstep : forall i s,
             exists s', drawDocBody (S (S n)) t i s = Some s').
  { intros i s.
    destruct (animAt_returns n (overWriteFirstTwoWaveforms (loopGame s)) t i Ht)
      as (anim & Hanim & _).
    apply (drawDocBody_returns _ _ _ _ anim Hanim). }
  destruct (Hstep 0%nat (mkDocLoop g0 zs zs [])) as [s1 ->]. cbn [bind].
  destruct (Hstep 1%nat s1) as [s2 ->]. cbn [bind].
  destruct (Hstep 2%nat s2) as [s3 ->]. cbn [bind].
  apply Hstep.
Qed.

(** From time 0 on, a frame of [drawDoc] with a budget of two calls per
    lookup returns. *)
Lemma drawDoc_returns (n : nat) (t : R) (g : Game) :
  0 <= t ->
  exists (g' : Game) (fr : DocFrame), drawDoc (S (S n)) t g = Some (g', fr).
Proof.
  intros Ht. unfold drawDoc. cbv zeta.
  destruct (body_loop_returns n t (endWarmUp t g)
              [zeroSprite; zeroSprite; zeroSprite; zeroSprite] Ht) as [s Hs].
  rewrite Hs. cbn [bind].
  apply body_loop_spec in Hs
    as (a0 & a1 & a2 & a3 & _ & _ & _ & _ & _ & _ & Hb & Hsh).
  cbn [assign] in Hb, Hsh.
  rewrite Hb, Hsh.
  match goal with
  | |- context [sortIndices [?b0; ?b1; ?b2; ?b3]] =>
    destruct (sortIndices_sorts b0 b1 b2 b3) as (order & -> & Hperm & _)
  end.
  cbn [bind].
  assert (Hin : forall k, In k order -> (k < 4)%nat).
  { intros k Hk. apply (Permutation_in _ Hperm) in Hk. cbn in Hk. lia. }
  match goal with
  | |- context [drawEach (drawShadow ?l) order] =>
    destruct (drawEach_shadows l order Hin) as [sc ->]
  end.
  cbn [bind].
  match goal with
  | |- context [drawEach (drawBall ?l) order] =>
    destruct (drawEach_balls l order Hin) as [bc ->]
  end.
  cbn [bind]. eexists. eexists. reflexivity.
Qed.

(** ** A frame of the main phase returns *)

Lemma for_range_returns {S : Type} (lo hi : nat)
  (body : nat -> S -> option S) (s : S) :
  (forall i x, (lo <= i < hi)%nat -> exists y, body i x = Some y) ->
  exists s', for_range lo hi body s = Some s'.
Proof.
  intros Hbody. unfold for_range.
  assert (Hin : forall i, In i (seq lo (hi - lo)) -> (lo <= i < hi)%nat)
    by (intros i Hi; apply in_seq in Hi; lia).
  revert Hin. generalize (seq lo (hi - lo)) as l. intros l. revert s.
  induction l as [| i l IH]; intros s Hin; cbn [fold_left].
  - exists s. reflexivity.
  - cbn [bind].
    destruct (Hbody i s) as [y ->]; [apply Hin; left; reflexivity |].
    apply IH. intros j Hj. apply Hin. right. exact Hj.
Qed.

Lemma bandShift_returns (g : Game) (j : nat) :
  scrollerReady g -> (j < 25)%nat -> exists x, bandShift g j = Some x.
Proof.
  intros (_ & Hmod & Hpos & Hv) Hj. unfold bandShift.
  destruct (Z.eqb_spec (scrollXMod g) 0) as [H0 | _]; [lia |].
  rewrite int_add_small by (unfold min_int, max_int in *; lia).
  unfold int_rem, index.
  rewrite Z.rem_mod_nonneg by lia.
  assert (Hr : (0 <= (vbl3 g + Z.of_nat j) mod scrollXMod g < scrollXMod g)%Z)
    by (apply Z.mod_pos_bound; lia).
  destruct (Z.ltb_spec ((vbl3 g + Z.of_nat j) mod scrollXMod g) 0); [lia |].
  destruct (nth_error (scrollX g)
              (Z.to_nat ((vbl3 g + Z.of_nat j) mod scrollXMod g)))
    as [x |] eqn:Hx; [exists x; reflexivity |].
  apply nth_error_None in Hx. lia.
Qed.

Lemma drawScroller_returns (g : Game) :
  scrollerReady g ->
  exists (g' : Game) (bands : list (R * R)),
    drawScroller g = Some (g', bands)
    /\ currentRadians g' = currentRadians g.
Proof.
  intros Hready. unfold drawScroller, drawScrollText.
  destruct Hready as (Htext & Hrest).
  destruct (Nat.eqb_spec (String.length (text2 g)) 0) as [H0 | _]; [lia |].
  cbn [bind].
  set (g1 := set_scrollX2 g _).
  assert (Hready1 : scrollerReady g1) by (split; [exact Htext | exact Hrest]).
  destruct (for_range_returns 0 25
              (fun j acc => dstX <- bandShift g1 j ;; Some (acc ++ [dstX])) [])
    as [pass1 ->].
  { intros j acc Hj.
    destruct (bandShift_returns g1 j Hready1) as [x ->]; [lia |].
    eexists. reflexivity. }
  cbn [bind].
  destruct (for_range_returns 0 25
              (fun j acc =>
                 dstX <- bandShift g1 j ;;
                 Some (acc ++ [(dstX,
                                IZR (Z.of_nat j * 2)
                                + (30 + 30 * cos (vbl4 g1 / 20)))])) [])
    as [bands ->].
  { intros j acc Hj.
    destruct (bandShift_returns g1 j Hready1) as [x ->]; [lia |].
    eexists. reflexivity. }
  cbn [bind]. eexists. eexists. split; reflexivity.
Qed.

(** From time 0 on, a frame of the main phase returns when the scroller is
    ready, and the bodies are drawn from the rotation the engine had. *)
Lemma Draw_main_returns (n : nat) (t : R) (g : Game) :
  jump g = true -> scrollerReady g -> 0 <= t ->
  exists (g2 g' : Game) (bands : list (R * R)) (d : DocFrame),
    Draw (S (S n)) t g
    = Some (g', mkFrame (Some (snd (drawChessboard g))) bands (Some d))
    /\ currentRadians g2 = currentRadians g
    /\ drawDoc (S (S n)) t g2 = Some (g', d).
Proof.
  intros Hj Hready Ht. rewrite Draw_main_eq by assumption.
  destruct (drawScroller_returns (fst (drawChessboard g))) as (g2 & bands & -> & Hcur);
    [exact Hready |].
  cbn [bind].
  destruct (drawDoc_returns n t g2 Ht) as (g' & d & Hdoc).
  exists g2, g', bands, d. rewrite Hdoc. cbn [bind].
  split; [reflexivity |]. split; [exact Hcur | reflexivity].
Qed.


(** ** From the intro to the main phase *)

Lemma banner1_before_backslash (k : nat) :
  (k < 125)%nat ->
  exists c : ascii,
    String.get k banner1 = Some c /\ Ascii.eqb c backslash = false.
Proof.
  intros H.
  do 125 (destruct k as [| k]; [eexists; split; reflexivity |]).
  lia.
Qed.

Lemma banner1_backslash : String.get 125 banner1 = Some backslash.
Proof. reflexivity. Qed.

Lemma banner1_length : String.length banner1 = 136%nat.
Proof. reflexivity. Qed.

(** The character cell of an offset that is an even number of pixels. *)
Lemma cell_of_offset (n : nat) :
  int_of_float (INR n * 2 / IZR fontWidth) = Z.of_nat (n / 31).
Proof.
  assert (Hn : 0 <= INR n) by apply pos_INR.
  rewrite int_of_float_nonneg by (unfold fontWidth; lra).
  apply Int_part_unique.
  pose proof (Nat.div_mod_eq n 31) as Hdm.
  pose proof (Nat.mod_upper_bound n 31) as Hr.
  assert (Hsplit : INR n = 31 * INR (n / 31) + INR (n mod 31)).
  { rewrite Hdm at 1. rewrite plus_INR, mult_INR.
    replace (INR 31) with 31 by (rewrite INR_IZR_INZ; reflexivity). reflexivity. }
  assert (H0 : 0 <= INR (n mod 31)) by apply pos_INR.
  assert (H1 : INR (n mod 31) <= 30).
  { replace 30 with (INR 30) by (rewrite INR_IZR_INZ; reflexivity).
    apply le_INR. lia. }
  rewrite <- INR_IZR_INZ. unfold fontWidth. rewrite Hsplit. lra.
Qed.

Lemma Update_intro (g : Game) (n : nat) :
  jump g = false -> text1 g = banner1 -> scrollX1 g = INR n * 2 ->
  (n <= 3875)%nat ->
  Update g
  = Some (set_scrollX1 (if (n =? 3875)%nat then set_jump g true else g)
            (INR (S n) * 2)).
Proof.
  intros Hj Ht Hx Hn. unfold Update. rewrite Hj. cbn [negb].
  rewrite Ht, Hx, cell_of_offset, banner1_length.
  assert (Hk : (n / 31 <= 125)%nat).
  { change 125%nat with (3875 / 31)%nat. apply Nat.Div0.div_le_mono. exact Hn. }
  destruct (Z.ltb_spec (Z.of_nat (n / 31)) (Z.of_nat 136)) as [_ | Hge]; [| lia].
  unfold byteAt.
  destruct (Z.ltb_spec (Z.of_nat (n / 31)) 0) as [Hneg | _]; [lia |].
  rewrite Nat2Z.id.
  assert (Hfm : fmod (INR n * 2 + 2) (IZR (Z.of_nat 136) * IZR fontWidth)
                = INR (S n) * 2).
  { assert (0 <= INR n) by apply pos_INR.
    assert (INR n <= 3875).
    { replace 3875 with (INR 3875) by (rewrite INR_IZR_INZ; reflexivity).
      apply le_INR. exact Hn. }
    rewrite fmod_small; [rewrite S_INR; ring | | ];
      unfold fontWidth; replace (IZR (Z.of_nat 136)) with 136 by reflexivity; lra. }
  destruct (Nat.eqb_spec n 3875) as [-> | Hne].
  - change (3875 / 31)%nat with 125%nat.
    rewrite banner1_backslash. cbn [bind].
    rewrite Ascii.eqb_refl.
    change (text1 (set_jump g true)) with (text1 g).
    change (scrollX1 (set_jump g true)) with (scrollX1 g).
    rewrite Ht, Hx, banner1_length, Hfm. reflexivity.
  - assert (Hlt : (n / 31 < 125)%nat).
    { apply Nat.Div0.div_lt_upper_bound. lia. }
    destruct (banner1_before_backslash (n / 31) Hlt) as (c & -> & Hc).
    cbn [bind]. rewrite Hc, Ht, Hx, banner1_length, Hfm. reflexivity.
Qed.

Lemma updates_reachable (n : nat) :
  forall g g' : Game, reachable g -> updates n g = Some g' -> reachable g'.
Proof.
  induction n as [| n IH]; intros g g' Hr Hu; cbn [updates] in Hu.
  - injection Hu as <-. exact Hr.
  - apply bind_Some in Hu as (g1 & H1 & H2).
    apply (reach_update g1); [apply (IH g); assumption | exact H2].
Qed.

Lemma set_scrollX1_twice (g : Game) (a b : R) :
  set_scrollX1 (set_scrollX1 g a) b = set_scrollX1 g b.
Proof. reflexivity. Qed.

(** Through the intro, [Update] alone moves the banner by 2 pixels a call. *)
Lemma intro_updates (n : nat) :
  (n <= 3875)%nat ->
  updates n (Init NewGame) = Some (set_scrollX1 (Init NewGame) (INR n * 2)).
Proof.
  induction n as [| n IH]; intros Hn; cbn [updates].
  - cbn [INR]. rewrite Rmult_0_l. reflexivity.
  - rewrite IH by lia. cbn [bind].
    rewrite (Update_intro _ n) by (reflexivity || lia).
    destruct (Nat.eqb_spec n 3875) as [-> | _]; [lia |].
    rewrite set_scrollX1_twice. reflexivity.
Qed.

Lemma mainEntry_reachable : reachable mainEntry.
Proof.
  apply (updates_reachable 3876 (Init NewGame)); [apply reach_init |].
  change (updates 3876 (Init NewGame))
    with (g' <- updates 3875 (Init NewGame) ;; Update g').
  rewrite intro_updates by lia. cbn [bind].
  rewrite (Update_intro _ 3875) by (reflexivity || lia).
  rewrite Nat.eqb_refl.
  replace (INR 3876 * 2) with 7752 by (rewrite INR_IZR_INZ; cbn; lra).
  reflexivity.
Qed.

Lemma mainEntry_ready :
  jump mainEntry = true
  /\ scrollerReady mainEntry
  /\ currentRadians mainEntry = 0.
Proof.
  split; [reflexivity |]. split; [| reflexivity].
  unfold scrollerReady, mainEntry, Init.
  cbn [text2 scrollXMod scrollX vbl3 set_jump set_scrollX1].
  change (scrollXMod (precalcScrollX NewGame))
    with (Z.of_nat (List.length (scrollX (precalcScrollX NewGame)))).
  rewrite precalcScrollX_length.
  split; [cbn; lia |]. split; [reflexivity |].
  split; [lia |].
  change (vbl3 (precalcScrollX NewGame)) with 0%Z.
  unfold max_int. lia.
Qed.

(** *** C9 *)

(** C9: in every state that the engine reaches, the step that
    [drawChessboard] adds to [xMove] is [xm * speed * 0.005] and its
    magnitude is at most 0.64, and [xMove], which is between 0 and 32 (ends
    included) before the frame, is so after the single wrap; in the main
    phase [Update] sets [xm = 128 cos(vbl2/40)] and [speed = -cos(vbl/40)],
    and the same holds for the frame drawn next. *)
Theorem floor_offset_stays_in_range (g : Game) :
  reachable g ->
  xMove (fst (drawChessboard g))
  = wrapOnce 32 (xMove g + xm g * speed g * 0.005)
  /\ Rabs (xm g * speed g * 0.005) <= 0.64
  /\ 0 <= xMove g <= 32
  /\ 0 <= xMove (fst (drawChessboard g)) <= 32
  /\ (jump g = true ->
      exists g' : Game,
        Update g = Some g'
        /\ xm g' = 128 * cos (vbl2 g / 40)
        /\ speed g' = - cos (vbl g / 40)
        /\ Rabs (xm g' * speed g' * 0.005) <= 0.64
        /\ 0 <= xMove g' <= 32
        /\ 0 <= xMove (fst (drawChessboard g')) <= 32).
Proof.
  intros Hr.
  pose proof (reachable_floorBounded g Hr) as Hb.
  pose proof (drawChessboard_floorBounded g Hb) as (_ & _ & Hafter).
  split; [reflexivity |].
  split; [destruct Hb as (Hxm & Hsp & _); apply increment_bound; assumption |].
  split; [apply Hb |]. split; [exact Hafter |].
  intros Hj.
  destruct (Update_main g Hj) as (g' & Hu & Hxm' & Hsp' & _ & _).
  exists g'. split; [exact Hu |]. split; [exact Hxm' |].
  split; [rewrite Hsp'; ring |].
  pose proof (Update_floorBounded g g' Hb Hu) as Hb'.
  pose proof (drawChessboard_floorBounded g' Hb') as (_ & _ & Hafter').
  destruct Hb' as (Hxm2 & Hsp2 & Hx2).
  split; [apply increment_bound; assumption |].
  split; assumption.
Qed.

Lemma floor_offset_stays_in_range_witness :
  reachable mainEntry
  /\ xMove (fst (drawChessboard mainEntry))
     = wrapOnce 32 (xMove mainEntry + xm mainEntry * speed mainEntry * 0.005)
  /\ Rabs (xm mainEntry * speed mainEntry * 0.005) <= 0.64
  /\ 0 <= xMove mainEntry <= 32
  /\ 0 <= xMove (fst (drawChessboard mainEntry)) <= 32
  /\ (jump mainEntry = true ->
      exists g' : Game,
        Update mainEntry = Some g'
        /\ xm g' = 128 * cos (vbl2 mainEntry / 40)
        /\ speed g' = - cos (vbl mainEntry / 40)
        /\ Rabs (xm g' * speed g' * 0.005) <= 0.64
        /\ 0 <= xMove g' <= 32
        /\ 0 <= xMove (fst (drawChessboard g')) <= 32).
Proof.
  split; [apply mainEntry_reachable |].
  apply (floor_offset_stays_in_range mainEntry). apply mainEntry_reachable.
Defined.

(** *** The accumulated rotation *)

Lemma two_pi_pos : 0 < PI * 2.
Proof. pose proof PI_RGT_0. lra. Qed.




(** The wrap keeps the sign of the sum: a rotation that has become negative
    stays negative under a negative spin. *)
Lemma advanceRadians_sign (r spin : R) :
  (r + spinStep spin < 0 -> advanceRadians r spin <= 0)
  /\ (0 <= r + spinStep spin -> 0 <= advanceRadians r spin).
Proof.
  unfold advanceRadians.
  destruct (fmod_range (r + spinStep spin) (PI * 2) two_pi_pos) as [Hp Hn].
  split; intros H; [apply Hn in H | apply Hp in H]; lra.
Qed.


(** *** The frame at clock reading 65 *)











(** *** C4 *)




(** *** C1 *)





(** * Further properties of the code *)

(** ** Rotation about the Y axis *)

Lemma RotateY_radius (v : Vec3.t) (r : R) :
  Vec3.X (Vec3.RotateY v r) * Vec3.X (Vec3.RotateY v r)
  + Vec3.Z (Vec3.RotateY v r) * Vec3.Z (Vec3.RotateY v r)
  = Vec3.X v * Vec3.X v + Vec3.Z v * Vec3.Z v.
Proof.
  cbn [Vec3.RotateY Vec3.X Vec3.Z].
  pose proof (sin2_cos2 r) as H. unfold Rsqr in H. nra.
Qed.

(** X1: [RotateY] leaves the height of a point and its distance from the
    axis unchanged, for every angle. *)
Theorem RotateY_keeps_height_and_radius (v : Vec3.t) (r : R) :
  Vec3.Y (Vec3.RotateY v r) = Vec3.Y v
  /\ Vec3.X (Vec3.RotateY v r) * Vec3.X (Vec3.RotateY v r)
     + Vec3.Z (Vec3.RotateY v r) * Vec3.Z (Vec3.RotateY v r)
     = Vec3.X v * Vec3.X v + Vec3.Z v * Vec3.Z v.
Proof. split; [reflexivity | apply RotateY_radius]. Qed.

Lemma RotateY_compose (v : Vec3.t) (a b : R) :
  Vec3.RotateY (Vec3.RotateY v a) b = Vec3.RotateY v (a + b).
Proof.
  destruct v as [x y z]. unfold Vec3.RotateY.
  cbn [Vec3.X Vec3.Y Vec3.Z]. rewrite cos_plus, sin_plus.
  f_equal; ring.
Qed.

Lemma RotateY_zero (v : Vec3.t) : Vec3.RotateY v 0 = v.
Proof.
  destruct v as [x y z]. unfold Vec3.RotateY.
  cbn [Vec3.X Vec3.Y Vec3.Z]. rewrite cos_0, sin_0. f_equal; ring.
Qed.

(** X2: two rotations in a row are the rotation by the sum of the angles;
    so a rotation is undone by the opposite angle, and a full turn changes
    nothing. *)
Theorem RotateY_adds_angles (v : Vec3.t) (a b : R) :
  Vec3.RotateY (Vec3.RotateY v a) b = Vec3.RotateY v (a + b)
  /\ Vec3.RotateY (Vec3.RotateY v a) (- a) = v
  /\ Vec3.RotateY v (2 * PI) = v.
Proof.
  split; [apply RotateY_compose |]. split.
  - rewrite RotateY_compose. replace (a + - a) with 0 by ring.
    apply RotateY_zero.
  - destruct v as [x y z]. unfold Vec3.RotateY.
    cbn [Vec3.X Vec3.Y Vec3.Z]. rewrite cos_2PI, sin_2PI. f_equal; ring.
Qed.

(** ** Projection *)

Lemma scale_decreasing (f z1 z2 : R) :
  0 < f -> 0 < f + z1 -> z1 < z2 -> f / (f + z2) < f / (f + z1).
Proof.
  intros Hf H1 H12. unfold Rdiv.
  apply Rmult_lt_compat_l; [exact Hf |].
  apply Rinv_lt_contravar; nra.
Qed.

(** X3: in front of the eye (focal length positive, [focalLength + z]
    positive) the scale of a sprite is positive, it is 0.7 on the plane
    [z = 0], and a point that is farther away gets a strictly smaller
    scale; the depth of the point is kept in the sprite. *)
Theorem NewSprite_scale (p q : Vec3.t) (f : R) (w h : Z) :
  0 < f -> 0 < f + Vec3.Z p -> Vec3.Z p < Vec3.Z q ->
  0 < Sprite.W (NewSprite q f w h)
  /\ Sprite.W (NewSprite q f w h) < Sprite.W (NewSprite p f w h)
  /\ (Vec3.Z p = 0 -> Sprite.W (NewSprite p f w h) = 0.7)
  /\ Sprite.Z (NewSprite p f w h) = Vec3.Z p.
Proof.
  intros Hf Hp Hpq. cbn [NewSprite Sprite.W Sprite.Z].
  pose proof (scale_decreasing f _ _ Hf Hp Hpq) as Hlt.
  assert (Hq : 0 < f / (f + Vec3.Z q)).
  { unfold Rdiv. apply Rmult_lt_0_compat; [exact Hf |].
    apply Rinv_0_lt_compat. lra. }
  split; [lra |]. split; [lra |]. split; [| reflexivity].
  intros H0. rewrite H0. field. lra.
Qed.

Lemma NewSprite_scale_witness :
  (0 < 400 /\ 0 < 400 + Vec3.Z (Vec3.mk 0 0 0)
   /\ Vec3.Z (Vec3.mk 0 0 0) < Vec3.Z (Vec3.mk 0 0 100))
  /\ 0 < Sprite.W (NewSprite (Vec3.mk 0 0 100) 400 768 540)
  /\ Sprite.W (NewSprite (Vec3.mk 0 0 100) 400 768 540)
     < Sprite.W (NewSprite (Vec3.mk 0 0 0) 400 768 540)
  /\ (Vec3.Z (Vec3.mk 0 0 0) = 0
      -> Sprite.W (NewSprite (Vec3.mk 0 0 0) 400 768 540) = 0.7)
  /\ Sprite.Z (NewSprite (Vec3.mk 0 0 0) 400 768 540) = Vec3.Z (Vec3.mk 0 0 0).
Proof.
  assert (H : 0 < 400 /\ 0 < 400 + Vec3.Z (Vec3.mk 0 0 0)
              /\ Vec3.Z (Vec3.mk 0 0 0) < Vec3.Z (Vec3.mk 0 0 100))
    by (cbn [Vec3.Z]; lra).
  split; [exact H |].
  apply (NewSprite_scale (Vec3.mk 0 0 0) (Vec3.mk 0 0 100) 400 768 540);
    apply H.
Defined.

(** ** Blending *)

(** X4: [blendAnim] with weight 0 is its first argument and with weight 1
    its second; with a weight between 0 and 1 every parameter of the blend
    lies between the two blended values. *)
Theorem blendAnim_between (a b : Anim) (alpha : R) :
  0 <= alpha <= 1 ->
  blendAnim a b 0 = a
  /\ blendAnim a b 1 = b
  /\ Rmin (SpinSpeed a) (SpinSpeed b) <= SpinSpeed (blendAnim a b alpha)
       <= Rmax (SpinSpeed a) (SpinSpeed b)
  /\ Rmin (Displace a) (Displace b) <= Displace (blendAnim a b alpha)
       <= Rmax (Displace a) (Displace b)
  /\ Rmin (BallLineDisplacement a) (BallLineDisplacement b)
       <= BallLineDisplacement (blendAnim a b alpha)
       <= Rmax (BallLineDisplacement a) (BallLineDisplacement b)
  /\ Rmin (RadiusFromCenterOfScreen a) (RadiusFromCenterOfScreen b)
       <= RadiusFromCenterOfScreen (blendAnim a b alpha)
       <= Rmax (RadiusFromCenterOfScreen a) (RadiusFromCenterOfScreen b).
Proof.
  intros Hal.
  assert (Hmix : forall x y : R,
             Rmin x y <= x * (1 - alpha) + y * alpha <= Rmax x y).
  { intros x y. unfold Rmin, Rmax. destruct (Rle_dec x y); nra. }
  split; [| split].
  - destruct a as [s d l r]. unfold blendAnim.
    cbn [SpinSpeed Displace BallLineDisplacement RadiusFromCenterOfScreen].
    f_equal; ring.
  - destruct b as [s d l r]. unfold blendAnim.
    cbn [SpinSpeed Displace BallLineDisplacement RadiusFromCenterOfScreen].
    f_equal; ring.
  - cbn [blendAnim SpinSpeed Displace BallLineDisplacement
                   RadiusFromCenterOfScreen].
    repeat split; apply Hmix.
Qed.

Lemma blendAnim_between_witness :
  0 <= 0.5 <= 1
  /\ blendAnim (mkAnim 5 0 20 150) (mkAnim (-7) 10 20 150) 0
     = mkAnim 5 0 20 150
  /\ blendAnim (mkAnim 5 0 20 150) (mkAnim (-7) 10 20 150) 1
     = mkAnim (-7) 10 20 150.
Proof.
  assert (H : 0 <= 0.5 <= 1) by lra.
  split; [exact H |].
  destruct (blendAnim_between (mkAnim 5 0 20 150) (mkAnim (-7) 10 20 150) 0.5 H)
    as (H0 & H1 & _).
  split; assumption.
Defined.

(** ** The motion profile on the other indices *)

(** Below 0 and up to 21 seconds the body of [getMovement] is the [default]
    branch. *)
Lemma getMovement_negative (fuel : nat) (index : Z) (t : R) (i : Z) :
  (index < 0)%Z -> t <= 21 ->
  getMovement (S fuel) index t i
  = getMovement fuel (int_add 2 (int_rem (int_sub index 2) 6)) t i.
Proof.
  intros Hi Ht. cbn [getMovement].
  rewrite (fltb_false 21 t Ht), andb_false_r.
  destruct index as [| p | p]; try lia. reflexivity.
Qed.

Lemma negative_wrapped_index (index : Z) :
  (min_int + 2 <= index < 0)%Z ->
  int_add 2 (int_rem (int_sub index 2) 6) = (2 + Z.rem (index - 2) 6)%Z
  /\ (-3 <= 2 + Z.rem (index - 2) 6 <= 2)%Z.
Proof.
  intros H.
  rewrite int_sub_small by (unfold min_int, max_int in *; lia).
  unfold int_rem.
  assert (Hr : (-6 < Z.rem (index - 2) 6 <= 0)%Z).
  { pose proof (Z.rem_bound_pos_neg (index - 2) 6). lia. }
  split; [| lia].
  apply int_add_small. unfold min_int, max_int. lia.
Qed.

(** The indices -3, -2 and -1 are sent to themselves: the recursion never
    ends, whatever the budget. *)
Lemma getMovement_loops (fuel : nat) (k : Z) (t : R) (i : Z) :
  (-3 <= k < 0)%Z -> t <= 21 -> getMovement fuel k t i = None.
Proof.
  intros Hk Ht. induction fuel as [| fuel IH]; [reflexivity |].
  rewrite getMovement_negative by (lia || assumption).
  replace (int_add 2 (int_rem (int_sub k 2) 6)) with k; [exact IH |].
  assert (Hc : k = (-3)%Z \/ k = (-2)%Z \/ k = (-1)%Z) by lia.
  destruct Hc as [-> | [-> | ->]]; reflexivity.
Qed.

(** X5: on a negative index, and while the clock has not passed 21
    seconds, [getMovement] calls itself on [2 + (index-2) % 6], where Go's
    [%] has the sign of [index - 2]: when this is 0, 1 or 2 the call
    returns, and when it is negative the function calls itself on the same
    index for ever, so that no budget of calls suffices.  Once the clock
    has passed 21 seconds every negative index is answered at once. *)
Theorem getMovement_negative_index (index : Z) (t : R) (i : Z) :
  (min_int + 2 <= index < 0)%Z ->
  (t <= 21 -> (2 + Z.rem (index - 2) 6 < 0)%Z ->
   forall fuel : nat, getMovement fuel index t i = None)
  /\ (t <= 21 -> (0 <= 2 + Z.rem (index - 2) 6)%Z ->
      exists a : Anim, getMovement 2 index t i = Some a)
  /\ (21 < t -> exists a : Anim, getMovement 1 index t i = Some a).
Proof.
  intros H.
  destruct (negative_wrapped_index index H) as [Hw Hr].
  split; [| split].
  - intros Ht Hneg fuel. destruct fuel as [| fuel]; [reflexivity |].
    rewrite getMovement_negative, Hw by (lia || assumption).
    apply getMovement_loops; [lia | exact Ht].
  - intros Ht Hpos.
    rewrite getMovement_negative, Hw by (lia || assumption).
    apply getMovement_no_call. lia.
  - intros Ht. rewrite getMovement_remap by (lia || assumption).
    apply getMovement_direct. apply intro_remap_range. exact Ht.
Qed.

Lemma getMovement_negative_index_witness :
  (min_int + 2 <= -1 < 0)%Z
  /\ (0 <= 21 -> (2 + Z.rem (-1 - 2) 6 < 0)%Z ->
      forall fuel : nat, getMovement fuel (-1) 0 0 = None)
  /\ (0 <= 21 -> (0 <= 2 + Z.rem (-1 - 2) 6)%Z ->
      exists a : Anim, getMovement 2 (-1) 0 0 = Some a)
  /\ (21 < 0 -> exists a : Anim, getMovement 1 (-1) 0 0 = Some a).
Proof.
  split; [unfold min_int; lia |].
  apply (getMovement_negative_index (-1) 0 0). unfold min_int. lia.
Defined.

(** *** What every recipe has in common *)

Lemma sin_cos_half (x : R) : -1 / 2 <= sin x * cos x <= 1 / 2.
Proof.
  pose proof (sin2_cos2 x) as H. unfold Rsqr in H.
  pose proof (Rle_0_sqr (sin x - cos x)) as H1.
  pose proof (Rle_0_sqr (sin x + cos x)) as H2.
  unfold Rsqr in H1, H2. nra.
Qed.

(** Brings the bounds of the sines and cosines of the goal into the
    context. *)
Ltac trig_bounds :=
  repeat match goal with
         | |- context [sin ?x] =>
           lazymatch goal with
           | _ : -1 <= sin x <= 1 |- _ => fail
           | _ => pose proof (SIN_bound x); pose proof (sin_cos_half x)
           end
         end.

Ltac recipe_bounds :=
  cbn [SpinSpeed Displace BallLineDisplacement RadiusFromCenterOfScreen];
  trig_bounds;
  repeat match goal with
         | |- context [Rabs ?e] =>
           let Hp := fresh in
           pose proof (Rabs_pos e) as Hp;
           let v := fresh "v" in
           let Hv := fresh in
           assert (Hv : Rabs e <= Rabs e) by lra;
           unfold Rabs at 2 in Hv; unfold Rabs at 1 in Hp;
           unfold Rabs; destruct (Rcase_abs e)
         end;
  repeat split; try nra.

(** The vertical displacement of every recipe is between -155 and 40, its
    ring spacing at most 35 degrees, and its radius 0 or 150. *)
Lemma getMovement_shape (fuel : nat) :
  forall (index : Z) (t : R) (i : Z) (a : Anim),
    getMovement fuel index t i = Some a ->
    -155 <= Displace a <= 40
    /\ 0 <= BallLineDisplacement a <= 35
    /\ 0 <= RadiusFromCenterOfScreen a <= 150.
Proof.
  induction fuel as [| fuel IH]; intros index t i a; [discriminate |].
  cbn [getMovement].
  set (k := if (index <? 2)%Z && fltb 21 t then _ else index).
  clearbody k.
  destruct k as [| p | p];
    try (intros H; injection H as <-; recipe_bounds; fail);
    try apply IH.
  do 4 (try (destruct p as [p | p |]);
        try (intros H; injection H as <-; recipe_bounds; fail);
        try apply IH).
Qed.

(** From index 2 on, every recipe has radius 150 and a ring spacing of at
    least 16 degrees. *)
Lemma getMovement_ring (n : nat) (index : Z) (t : R) (i : Z) (a : Anim) :
  (2 <= index <= max_int)%Z ->
  getMovement (S (S n)) index t i = Some a ->
  RadiusFromCenterOfScreen a = 150 /\ 16 <= BallLineDisplacement a <= 35.
Proof.
  intros Hi.
  assert (Hdirect : forall m k, (2 <= k <= 7)%Z ->
             getMovement (S m) k t i = Some a ->
             RadiusFromCenterOfScreen a = 150
             /\ 16 <= BallLineDisplacement a <= 35).
  { intros m k Hk.
    assert (Hc : k = 2%Z \/ k = 3%Z \/ k = 4%Z \/ k = 5%Z \/ k = 6%Z \/ k = 7%Z)
      by lia.
    destruct Hc as [-> | [-> | [-> | [-> | [-> | ->]]]]];
      cbn [getMovement Z.ltb Z.compare Pos.compare Pos.compare_cont andb];
      intros H; injection H as <-;
      cbn [RadiusFromCenterOfScreen BallLineDisplacement]; lra. }
  destruct (Z_lt_le_dec 7 index) as [H7 | H7].
  - destruct (wrapped_index index (conj H7 (proj2 Hi))) as [Hw Hr].
    rewrite getMovement_default, Hw by assumption.
    apply Hdirect. exact Hr.
  - apply Hdirect. lia.
Qed.

(** ** The geometry of a frame *)

(** From time 0 on the blended recipe of a body has radius 150, a vertical
    displacement of at most 40 and a ring spacing between 16 and 35. *)
Lemma animAt_ring (n : nat) (overWrite : bool) (t : R) (i : nat) (anim : Anim) :
  0 <= t ->
  animAt (S (S n)) overWrite t i = Some anim ->
  RadiusFromCenterOfScreen anim = 150
  /\ -155 <= Displace anim <= 40
  /\ 16 <= BallLineDisplacement anim <= 35.
Proof.
  intros Ht H. unfold animAt in H.
  pose proof (animIndexAt_range overWrite t Ht) as Hr.
  pose proof (alphaAt_range t Ht) as Hal.
  apply bind_Some in H as (a & Ha & H).
  apply bind_Some in H as (b & Hb & H).
  injection H as <-.
  rewrite int_add_small in Hb by (unfold min_int, max_int; lia).
  assert (Hia : (2 <= animIndexAt overWrite t <= max_int)%Z)
    by (unfold max_int; lia).
  assert (Hib : (2 <= animIndexAt overWrite t + 1 <= max_int)%Z)
    by (unfold max_int; lia).
  destruct (getMovement_ring n _ t _ a Hia Ha) as [Hra Hsa].
  destruct (getMovement_ring n _ t _ b Hib Hb) as [Hrb Hsb].
  destruct (getMovement_shape _ _ _ _ _ Ha) as (Hda & _ & _).
  destruct (getMovement_shape _ _ _ _ _ Hb) as (Hdb & _ & _).
  cbn [blendAnim RadiusFromCenterOfScreen Displace BallLineDisplacement].
  rewrite Hra, Hrb.
  split; [ring |]. split; nra.
Qed.

(** A body on a ring of radius 150 stays within 150 of the screen plane,
    whatever the two rotations. *)
Lemma ring_depth (anim : Anim) (i : nat) (angle : R) :
  RadiusFromCenterOfScreen anim = 150 ->
  -150 <= Vec3.Z (Vec3.RotateY (ringPosition anim i) angle) <= 150.
Proof.
  intros Hr.
  pose proof (RotateY_radius (ringPosition anim i) angle) as H2.
  set (p := Vec3.RotateY (ringPosition anim i) angle) in *.
  assert (H1 : Vec3.X (ringPosition anim i) * Vec3.X (ringPosition anim i)
               + Vec3.Z (ringPosition anim i) * Vec3.Z (ringPosition anim i)
               = 150 * 150).
  { unfold ringPosition. cbv zeta. cbn [Vec3.X Vec3.Z].
    rewrite !Rplus_0_r.
    rewrite RotateY_radius. cbn [Vec3.X Vec3.Z]. rewrite Hr. ring. }
  rewrite H1 in H2.
  assert (Hx : 0 <= Vec3.X p * Vec3.X p) by nra.
  split; nra.
Qed.

(** One body and its shadow. *)
Lemma body_and_shadow (anim : Anim) (i : nat) (angle : R) :
  RadiusFromCenterOfScreen anim = 150 ->
  Displace anim <= 40 ->
  let b := ballAt anim i angle in
  let s := shadowAt anim i angle in
  -150 <= Sprite.Z b <= 150
  /\ 0.7 * (400 / 550) <= Sprite.W b <= 0.7 * (400 / 250)
  /\ Sprite.U s = Sprite.U b
  /\ Sprite.W s = Sprite.W b
  /\ Sprite.Z s = Sprite.Z b
  /\ Sprite.V b < Sprite.V s.
Proof.
  intros Hr Hd b s.
  pose proof (ring_depth anim i angle Hr) as Hz.
  subst b s. unfold ballAt, shadowAt. cbv zeta.
  set (p := Vec3.RotateY (ringPosition anim i) angle) in *.
  assert (Hy : Vec3.Y p = Displace anim).
  { subst p. cbn [Vec3.RotateY Vec3.Y ringPosition]. ring. }
  cbn [NewSprite Sprite.Z Sprite.W Sprite.U Sprite.V Vec3.X Vec3.Y Vec3.Z].
  unfold FOCAL_LENGTH.
  assert (Hpos : 0 < 400 + Vec3.Z p) by lra.
  assert (Hinv : / 550 <= / (400 + Vec3.Z p) <= / 250).
  { split; apply Rinv_le_contravar; lra. }
  assert (Hscale : 400 / 550 <= 400 / (400 + Vec3.Z p) <= 400 / 250).
  { unfold Rdiv. lra. }
  split; [exact Hz |]. split; [lra |].
  split; [reflexivity |]. split; [reflexivity |]. split; [reflexivity |].
  rewrite Hy.
  assert (0 < 400 / (400 + Vec3.Z p)) by lra.
  nra.
Qed.

(** X6: from time 0 on, a frame of [drawDoc] returns four bodies and four
    shadows, and for each body: its depth is between -150 and 150, so that
    the projection divides by at least 250 and its scale is between
    0.7*400/550 and 0.7*400/250; its shadow has the same horizontal
    position, scale and depth, and is drawn lower on the screen. *)
Theorem frame_geometry (n : nat) (t : R) (g : Game) :
  0 <= t ->
  exists (g' : Game) (fr : DocFrame),
    drawDoc (S (S n)) t g = Some (g', fr)
    /\ List.length (frameBalls fr) = 4%nat
    /\ List.length (frameShadows fr) = 4%nat
    /\ forall (i : nat) (b s : Sprite.t),
         nth_error (frameBalls fr) i = Some b ->
         nth_error (frameShadows fr) i = Some s ->
         -150 <= Sprite.Z b <= 150
         /\ 0.7 * (400 / 550) <= Sprite.W b <= 0.7 * (400 / 250)
         /\ Sprite.U s = Sprite.U b
         /\ Sprite.W s = Sprite.W b
         /\ Sprite.Z s = Sprite.Z b
         /\ Sprite.V b < Sprite.V s.
Proof.
  intros Ht.
  destruct (drawDoc_returns n t g Ht) as (g' & fr & Hrun).
  exists g', fr. split; [exact Hrun |].
  destruct (drawDoc_frame _ _ _ _ _ Hrun)
    as (a0 & a1 & a2 & a3 & H0 & H1 & H2 & H3 & _ & _ & _
        & _ & Hb & Hs & _ & _).
  rewrite Hb, Hs. split; [reflexivity |]. split; [reflexivity |].
  destruct (animAt_ring _ _ _ _ _ Ht H0) as (R0 & [_ D0] & _).
  destruct (animAt_ring _ _ _ _ _ Ht H1) as (R1 & [_ D1] & _).
  destruct (animAt_ring _ _ _ _ _ Ht H2) as (R2 & [_ D2] & _).
  destruct (animAt_ring _ _ _ _ _ Ht H3) as (R3 & [_ D3] & _).
  intros i b s Hib His.
  destruct i as [| [| [| [| i]]]]; cbn [nth_error] in Hib, His;
    try (destruct i; discriminate);
    injection Hib as <-; injection His as <-;
    apply body_and_shadow; assumption.
Qed.

Lemma frame_geometry_witness :
  0 <= 65
  /\ exists (g' : Game) (fr : DocFrame),
       drawDoc 2 65 mainEntry = Some (g', fr)
       /\ List.length (frameBalls fr) = 4%nat
       /\ List.length (frameShadows fr) = 4%nat
       /\ forall (i : nat) (b s : Sprite.t),
            nth_error (frameBalls fr) i = Some b ->
            nth_error (frameShadows fr) i = Some s ->
            -150 <= Sprite.Z b <= 150
            /\ 0.7 * (400 / 550) <= Sprite.W b <= 0.7 * (400 / 250)
            /\ Sprite.U s = Sprite.U b
            /\ Sprite.W s = Sprite.W b
            /\ Sprite.Z s = Sprite.Z b
            /\ Sprite.V b < Sprite.V s.
Proof.
  split; [lra |].
  apply (frame_geometry 0 65 mainEntry). lra.
Defined.

(** ** What each call changes in the engine state *)

Lemma drawDocBody_state (fuel : nat) (t : R) (i : nat) (s s' : DocLoop) :
  drawDocBody fuel t i s = Some s' ->
  loopGame s' = set_currentRadians (loopGame s) (currentRadians (loopGame s')).
Proof.
  unfold drawDocBody. intros H.
  apply bind_Some in H as (anim & _ & H). injection H as <-. reflexivity.
Qed.

(** [drawDoc] writes the accumulated rotation and the warm-up flag, and
    nothing else. *)
Lemma drawDoc_state (fuel : nat) (t : R) (g g' : Game) (fr : DocFrame) :
  drawDoc fuel t g = Some (g', fr) ->
  g' = set_currentRadians (endWarmUp t g) (currentRadians g').
Proof.
  unfold drawDoc. cbv zeta. intros H.
  apply bind_Some in H as (s & Hloop & H).
  apply bind_Some in H as (indices & _ & H).
  apply bind_Some in H as (sc & _ & H).
  apply bind_Some in H as (bc & _ & H).
  injection H as <- _.
  rewrite for_range_0_4 in Hloop.
  apply bind_Some in Hloop as (s1 & H1 & Hloop).
  apply bind_Some in Hloop as (s2 & H2 & Hloop).
  apply bind_Some in Hloop as (s3 & H3 & H4).
  apply drawDocBody_state in H1, H2, H3, H4.
  cbn [loopGame] in H1.
  rewrite H4, H3, H2, H1. reflexivity.
Qed.

(** [drawScroller] advances the banner offset and the two counters of the
    wave, and nothing else. *)
Lemma drawScroller_state (g g' : Game) (bands : list (R * R)) :
  drawScroller g = Some (g', bands) ->
  exists x2 : R,
    drawScrollText (text2 g) (scrollX2 g) = Some x2
    /\ g' = set_vbl3 (set_vbl4 (set_scrollX2 g x2) (vbl4 g + 1.2))
              (int_add (vbl3 g) 1).
Proof.
  unfold drawScroller. intros H.
  apply bind_Some in H as (x2 & Hx & H).
  apply bind_Some in H as (p1 & _ & H).
  apply bind_Some in H as (p2 & _ & H).
  injection H as <- _. exists x2. split; [exact Hx | reflexivity].
Qed.

(** A frame of the main phase, as a change of state. *)
Lemma Draw_main_state (fuel : nat) (t : R) (g g' : Game) (f : Frame) :
  jump g = true -> Draw fuel t g = Some (g', f) ->
  exists (x2 : R),
    drawScrollText (text2 g) (scrollX2 g) = Some x2
    /\ g' = set_currentRadians
              (endWarmUp t
                 (set_vbl3
                    (set_vbl4
                       (set_scrollX2 (advanceYMove (advanceXMove g)) x2)
                       (vbl4 g + 1.2))
                    (int_add (vbl3 g) 1)))
              (currentRadians g').
Proof.
  intros Hj Hd.
  destruct (Draw_main fuel t g g' f Hj Hd) as (g2 & bands & d & Hs & Hdoc & _).
  apply drawScroller_state in Hs as (x2 & Hx & ->).
  apply drawDoc_state in Hdoc.
  exists x2. split; [exact Hx | exact Hdoc].
Qed.

Lemma Draw_intro_state (fuel : nat) (t : R) (g g' : Game) (f : Frame) :
  jump g = false -> Draw fuel t g = Some (g', f) ->
  exists x1 : R,
    drawScrollText (text1 g) (scrollX1 g) = Some x1
    /\ g' = set_scrollX1 g x1.
Proof.
  intros Hj Hd. unfold Draw in Hd. rewrite Hj in Hd. cbn [negb] in Hd.
  apply bind_Some in Hd as (x1 & Hx & Hd).
  injection Hd as <- _. exists x1. split; [exact Hx | reflexivity].
Qed.

Lemma Update_main_state (g g' : Game) :
  jump g = true -> Update g = Some g' ->
  g' = set_vbl2
         (set_xm
            (set_vbl (set_speed g (-1 * cos (vbl g / 40))) (vbl g + 0.16))
            (128 * cos (vbl2 g / 40)))
         (vbl2 g + 0.8).
Proof.
  intros Hj Hu. unfold Update in Hu. rewrite Hj in Hu. cbn [negb] in Hu.
  injection Hu as <-. reflexivity.
Qed.

(** In the intro [Update] writes the banner offset and may set [jump]. *)
Lemma Update_intro_state (g g' : Game) :
  jump g = false -> Update g = Some g' ->
  exists b : bool,
    g' = set_scrollX1 (if b then set_jump g true else g)
           (fmod (scrollX1 g + 2)
              (IZR (Z.of_nat (String.length (text1 g))) * IZR fontWidth)).
Proof.
  intros Hj Hu. unfold Update in Hu. rewrite Hj in Hu. cbn [negb] in Hu.
  apply bind_Some in Hu as (g1 & Hg1 & Hu). injection Hu as <-.
  destruct (int_of_float (scrollX1 g / IZR fontWidth)
            <? Z.of_nat (String.length (text1 g)))%Z.
  - apply bind_Some in Hg1 as (c & _ & Hg1). injection Hg1 as <-.
    exists (Ascii.eqb c backslash).
    destruct (Ascii.eqb c backslash); reflexivity.
  - injection Hg1 as <-. exists false. reflexivity.
Qed.

(** ** Invariants of the engine *)

(** Reduces the fields of a state that is written as assignments to
    another state. *)
Ltac fields :=
  cbn [vbl vbl2 vbl3 vbl4 xMove yMove xm ym fov speed scrollX scrollXMod
       text1 text2 scrollX1 scrollX2 scrollX3 currentRadians
       overWriteFirstTwoWaveforms jump
       set_vbl set_vbl2 set_vbl3 set_vbl4 set_xMove set_yMove set_xm
       set_speed set_scrollX set_scrollXMod set_scrollX1 set_scrollX2
       set_currentRadians set_overWriteFirstTwoWaveforms set_jump
       advanceXMove advanceYMove].

Lemma banner2_length : String.length banner2 = 321%nat.
Proof. reflexivity. Qed.

(** The offset that [drawScrollText] returns is within the pixel length of
    the text. *)
Lemma drawScrollText_range (text : string) (x : R) :
  (0 < String.length text)%nat -> -3 <= x ->
  exists x' : R,
    drawScrollText text x = Some x'
    /\ 0 <= x' < IZR (Z.of_nat (String.length text)) * IZR fontWidth.
Proof.
  intros Hlen Hx. unfold drawScrollText.
  destruct (Nat.eqb_spec (String.length text) 0) as [H0 | _]; [lia |].
  eexists. split; [reflexivity |].
  assert (HL : 0 < IZR (Z.of_nat (String.length text)) * IZR fontWidth).
  { apply Rmult_lt_0_compat; [apply IZR_lt; lia | unfold fontWidth; lra]. }
  destruct (fmod_range (x + 3) _ HL) as [Hpos _]. apply Hpos. lra.
Qed.

Lemma drawScrollText_inv (text : string) (x x' : R) :
  drawScrollText text x = Some x' -> 0 <= x ->
  0 <= x' < IZR (Z.of_nat (String.length text)) * IZR fontWidth.
Proof.
  intros H Hx.
  assert (Hlen : (0 < String.length text)%nat).
  { unfold drawScrollText in H.
    destruct (Nat.eqb_spec (String.length text) 0); [discriminate | lia]. }
  destruct (drawScrollText_range text x Hlen) as (y & Hy & Hr); [lra |].
  congruence.
Qed.

Lemma engineInvariant_init : engineInvariant (Init NewGame).
Proof.
  unfold engineInvariant.
  split; [reflexivity |]. split; [reflexivity |]. split; [reflexivity |].
  split.
  { change (scrollXMod (Init NewGame))
      with (Z.of_nat (List.length (scrollX (precalcScrollX NewGame)))).
    rewrite precalcScrollX_length. reflexivity. }
  split; [reflexivity |]. split; [reflexivity |].
  change (speed (Init NewGame)) with 1.
  change (yMove (Init NewGame)) with 0.
  change (scrollX1 (Init NewGame)) with 0.
  change (scrollX2 (Init NewGame)) with 0.
  rewrite Rabs_R1. lra.
Qed.

Lemma engineInvariant_Update (g g' : Game) :
  engineInvariant g -> Update g = Some g' -> engineInvariant g'.
Proof.
  intros (Ht1 & Ht2 & Htab & Hmod & Hym & Hfov & Hsp & Hy & Hx1 & Hx2) Hu.
  destruct (jump g) eqn:Hj.
  - rewrite (Update_main_state g g' Hj Hu).
    unfold engineInvariant. fields.
    repeat (split; [assumption |]).
    split; [| repeat split; assumption || apply Hy || apply Hx1 || apply Hx2].
    rewrite Rabs_mult. replace (Rabs (-1)) with 1 by (rewrite Rabs_left; lra).
    pose proof (cos_abs_le_1 (vbl g / 40)). lra.
  - destruct (Update_intro_state g g' Hj Hu) as [b ->].
    assert (Hnew : 0 <= fmod (scrollX1 g + 2)
                          (IZR (Z.of_nat (String.length (text1 g)))
                           * IZR fontWidth) < 8432).
    { rewrite Ht1, banner1_length.
      replace (IZR (Z.of_nat 136) * IZR fontWidth) with 8432
        by (unfold fontWidth; cbn; lra).
      destruct (fmod_range (scrollX1 g + 2) 8432) as [Hpos _]; [lra |].
      apply Hpos. lra. }
    unfold engineInvariant. destruct b; fields;
      repeat (split; [assumption |]); assumption.
Qed.

Lemma engineInvariant_Draw (fuel : nat) (t : R) (g g' : Game) (f : Frame) :
  engineInvariant g -> Draw fuel t g = Some (g', f) -> engineInvariant g'.
Proof.
  intros (Ht1 & Ht2 & Htab & Hmod & Hym & Hfov & Hsp & Hy & Hx1 & Hx2) Hd.
  destruct (jump g) eqn:Hj.
  - destruct (Draw_main_state fuel t g g' f Hj Hd) as (x2 & Hx & ->).
    apply drawScrollText_inv in Hx; [| lra].
    rewrite Ht2, banner2_length in Hx.
    replace (IZR (Z.of_nat 321) * IZR fontWidth) with 19902 in Hx
      by (unfold fontWidth; cbn; lra).
    assert (Hstep : -64 <= ym g * speed g * 0.016 <= 64).
    { rewrite Hym. apply Rabs_le_between in Hsp. lra. }
    pose proof (wrapOnce_keeps_range 64 (yMove g) _ Hy Hstep) as Hy'.
    unfold engineInvariant, endWarmUp.
    match goal with
    | |- context [if ?c then _ else _] => destruct c
    end; fields; repeat (split; [assumption |]); assumption.
  - destruct (Draw_intro_state fuel t g g' f Hj Hd) as (x1 & Hx & ->).
    apply drawScrollText_inv in Hx; [| lra].
    rewrite Ht1, banner1_length in Hx.
    replace (IZR (Z.of_nat 136) * IZR fontWidth) with 8432 in Hx
      by (unfold fontWidth; cbn; lra).
    unfold engineInvariant. fields.
    repeat (split; [assumption |]); assumption.
Qed.

Lemma reachable_engineInvariant (g : Game) :
  reachable g -> engineInvariant g.
Proof.
  induction 1 as [| g g' _ IH Hu | fuel t g g' f _ IH Hd].
  - apply engineInvariant_init.
  - apply (engineInvariant_Update g); assumption.
  - apply (engineInvariant_Draw fuel t g g' f); assumption.
Qed.

(** X7: in every state that the engine reaches, the vertical floor offset
    [yMove] is between 0 and 64 (ends included), the step that
    [drawChessboard] adds to it, [ym * speed * 0.016] with [ym = 315], has
    magnitude at most 5.04, and the single wrap keeps the offset between 0
    and 64 after the frame. *)
Theorem yMove_stays_in_range (g : Game) :
  reachable g ->
  0 <= yMove g <= 64
  /\ ym g = 315
  /\ Rabs (ym g * speed g * 0.016) <= 5.04
  /\ yMove (fst (drawChessboard g))
     = wrapOnce 64 (yMove g + ym g * speed g * 0.016)
  /\ 0 <= yMove (fst (drawChessboard g)) <= 64.
Proof.
  intros Hr.
  destruct (reachable_engineInvariant g Hr)
    as (_ & _ & _ & _ & Hym & _ & Hsp & Hy & _ & _).
  assert (Hstep : -5.04 <= ym g * speed g * 0.016 <= 5.04).
  { rewrite Hym. apply Rabs_le_between in Hsp. lra. }
  split; [exact Hy |]. split; [exact Hym |].
  split; [apply Rabs_le; lra |].
  split; [reflexivity |].
  change (yMove (fst (drawChessboard g)))
    with (wrapOnce 64 (yMove g + ym g * speed g * 0.016)).
  apply wrapOnce_keeps_range; [exact Hy | lra].
Qed.

Lemma yMove_stays_in_range_witness :
  reachable mainEntry /\ 0 <= yMove (fst (drawChessboard mainEntry)) <= 64.
Proof.
  split; [apply mainEntry_reachable |].
  apply (yMove_stays_in_range mainEntry). apply mainEntry_reachable.
Defined.

(** X8: in every state that the engine reaches, the offset of the intro
    banner is at least 0 and below the pixel length of its text
    (136 * 62), and the offset of the main banner is at least 0 and below
    321 * 62. *)
Theorem scroll_offsets_stay_in_range (g : Game) :
  reachable g ->
  0 <= scrollX1 g < IZR (Z.of_nat (String.length (text1 g))) * IZR fontWidth
  /\ 0 <= scrollX2 g
       < IZR (Z.of_nat (String.length (text2 g))) * IZR fontWidth
  /\ String.length (text1 g) = 136%nat
  /\ String.length (text2 g) = 321%nat.
Proof.
  intros Hr.
  destruct (reachable_engineInvariant g Hr)
    as (Ht1 & Ht2 & _ & _ & _ & _ & _ & _ & Hx1 & Hx2).
  rewrite Ht1, Ht2, banner1_length, banner2_length.
  replace (IZR (Z.of_nat 136) * IZR fontWidth) with 8432
    by (unfold fontWidth; cbn; lra).
  replace (IZR (Z.of_nat 321) * IZR fontWidth) with 19902
    by (unfold fontWidth; cbn; lra).
  repeat split; try reflexivity; lra.
Qed.

Lemma scroll_offsets_stay_in_range_witness :
  reachable mainEntry
  /\ 0 <= scrollX1 mainEntry
       < IZR (Z.of_nat (String.length (text1 mainEntry))) * IZR fontWidth.
Proof.
  split; [apply mainEntry_reachable |].
  apply (scroll_offsets_stay_in_range mainEntry). apply mainEntry_reachable.
Defined.

(** X9: what [NewGame] and [Init] set up stays as it is: in every state
    that the engine reaches the displacement table is the one that
    [precalcScrollX] built, with its 1035 entries counted in [scrollXMod],
    the two banner texts are unchanged, and so are [ym] and [fov]. *)
Theorem setup_is_never_changed (g : Game) :
  reachable g ->
  scrollX g = scrollX (precalcScrollX NewGame)
  /\ scrollXMod g = Z.of_nat (List.length (scrollX g))
  /\ List.length (scrollX g) = 1035%nat
  /\ text1 g = text1 NewGame
  /\ text2 g = text2 NewGame
  /\ ym g = ym NewGame
  /\ fov g = fov NewGame.
Proof.
  intros Hr.
  destruct (reachable_engineInvariant g Hr)
    as (Ht1 & Ht2 & Htab & Hmod & Hym & Hfov & _).
  change (scrollX (Init NewGame)) with (scrollX (precalcScrollX NewGame)) in Htab.
  rewrite Htab, precalcScrollX_length.
  repeat split; assumption.
Qed.

Lemma setup_is_never_changed_witness :
  reachable mainEntry /\ List.length (scrollX mainEntry) = 1035%nat.
Proof.
  split; [apply mainEntry_reachable |].
  apply (setup_is_never_changed mainEntry). apply mainEntry_reachable.
Defined.

(** ** The two latches *)

Lemma Update_keeps_flags (g g' : Game) :
  Update g = Some g' ->
  (jump g = true -> jump g' = true)
  /\ overWriteFirstTwoWaveforms g' = overWriteFirstTwoWaveforms g.
Proof.
  intros Hu. destruct (jump g) eqn:Hj.
  - rewrite (Update_main_state g g' Hj Hu). fields. split; [intros _; exact Hj | reflexivity].
  - destruct (Update_intro_state g g' Hj Hu) as [b ->].
    destruct b; fields; split; (discriminate || reflexivity).
Qed.

Lemma Draw_keeps_flags (fuel : nat) (t : R) (g g' : Game) (f : Frame) :
  Draw fuel t g = Some (g', f) ->
  jump g' = jump g
  /\ overWriteFirstTwoWaveforms g'
     = if jump g
       then overWriteFirstTwoWaveforms g && negb (fltb (ANIM_DURATION * 3) t)
       else overWriteFirstTwoWaveforms g.
Proof.
  intros Hd. destruct (jump g) eqn:Hj.
  - destruct (Draw_main_state fuel t g g' f Hj Hd) as (x2 & _ & ->).
    unfold endWarmUp. fields.
    destruct (overWriteFirstTwoWaveforms g) eqn:Ho;
      destruct (fltb (ANIM_DURATION * 3) t); cbn [andb negb]; fields;
      split; (exact Hj || exact Ho || reflexivity).
  - destruct (Draw_intro_state fuel t g g' f Hj Hd) as (x1 & _ & ->).
    fields. split; [exact Hj | reflexivity].
Qed.

(** X10: the two flags of the engine are one-way latches.  No call of
    [Update] or [Draw] clears [jump] once it is set, and none sets the
    warm-up flag [overWriteFirstTwoWaveforms] again once it is cleared. *)
Theorem flags_are_latches (g g' : Game) :
  engineStep g g' ->
  (jump g = true -> jump g' = true)
  /\ (overWriteFirstTwoWaveforms g = false ->
      overWriteFirstTwoWaveforms g' = false).
Proof.
  intros [Hu | (fuel & t & f & Hd)].
  - destruct (Update_keeps_flags g g' Hu) as [Hj Ho].
    split; [exact Hj | intros H; rewrite Ho; exact H].
  - destruct (Draw_keeps_flags fuel t g g' f Hd) as [Hj Ho].
    split; [intros H; rewrite Hj; exact H |].
    intros H. rewrite Ho, H. destruct (jump g); reflexivity.
Qed.

(** X11: the warm-up ends with the first frame of the main phase that is
    drawn after the clock has passed 21 seconds: such a [Draw] clears the
    flag, while a [Draw] of the intro or one at 21 seconds or before
    leaves it as it was, and so does every [Update]. *)
Theorem warmUp_ends_after_21_seconds (fuel : nat) (t : R) (g g' : Game)
  (f : Frame) :
  Draw fuel t g = Some (g', f) ->
  (jump g = true -> 21 < t -> overWriteFirstTwoWaveforms g' = false)
  /\ (t <= 21 ->
      overWriteFirstTwoWaveforms g' = overWriteFirstTwoWaveforms g)
  /\ (jump g = false ->
      overWriteFirstTwoWaveforms g' = overWriteFirstTwoWaveforms g)
  /\ (forall g'' : Game,
        Update g = Some g'' ->
        overWriteFirstTwoWaveforms g'' = overWriteFirstTwoWaveforms g).
Proof.
  intros Hd. destruct (Draw_keeps_flags fuel t g g' f Hd) as [_ Ho].
  split; [| split; [| split]].
  - intros Hj Ht. rewrite Ho, Hj.
    rewrite (fltb_true (ANIM_DURATION * 3) t) by (unfold ANIM_DURATION; lra).
    apply andb_false_r.
  - intros Ht. rewrite Ho.
    rewrite (fltb_false (ANIM_DURATION * 3) t) by (unfold ANIM_DURATION; lra).
    destruct (jump g); [apply andb_true_r | reflexivity].
  - intros Hj. rewrite Ho, Hj. reflexivity.
  - intros g'' Hu. apply (Update_keeps_flags g g'' Hu).
Qed.

Lemma flags_are_latches_witness :
  exists g' : Game,
    engineStep mainEntry g'
    /\ (jump mainEntry = true -> jump g' = true)
    /\ (overWriteFirstTwoWaveforms mainEntry = false ->
        overWriteFirstTwoWaveforms g' = false).
Proof.
  destruct (Update_main mainEntry eq_refl) as (g' & Hu & _).
  exists g'.
  assert (Hstep : engineStep mainEntry g') by (left; exact Hu).
  split; [exact Hstep |].
  apply (flags_are_latches mainEntry g' Hstep).
Defined.

Lemma warmUp_ends_after_21_seconds_witness :
  exists (g' : Game) (f : Frame),
    Draw 2 65 mainEntry = Some (g', f)
    /\ (jump mainEntry = true -> 21 < 65 ->
        overWriteFirstTwoWaveforms g' = false).
Proof.
  destruct mainEntry_ready as (Hj & Hready & _).
  destruct (Draw_main_returns 0 65 mainEntry Hj Hready)
    as (g2 & g' & bands & d & Hdraw & _); [lra |].
  eexists g', _. split; [exact Hdraw |].
  apply (warmUp_ends_after_21_seconds 2 65 mainEntry g' _ Hdraw).
Defined.

(** ** The intro leaves the main phase untouched *)

Lemma mainUntouched_init : mainUntouched (Init NewGame).
Proof. repeat split. Qed.

Lemma intro_step_untouched (g g' : Game) :
  jump g = false -> engineStep g g' -> mainUntouched g -> mainUntouched g'.
Proof.
  intros Hj [Hu | (fuel & t & f & Hd)] Hm.
  - destruct (Update_intro_state g g' Hj Hu) as [b ->].
    unfold mainUntouched in *. destruct b; fields; exact Hm.
  - destruct (Draw_intro_state fuel t g g' f Hj Hd) as (x1 & _ & ->).
    unfold mainUntouched in *. fields. exact Hm.
Qed.

Lemma reachable_intro_untouched (g : Game) :
  reachable g -> jump g = false -> mainUntouched g.
Proof.
  induction 1 as [| g g' Hr IH Hu | fuel t g g' f Hr IH Hd]; intros Hj.
  - apply mainUntouched_init.
  - assert (Hstep : engineStep g g') by (left; exact Hu).
    assert (Hjg : jump g = false).
    { destruct (Update_keeps_flags g g' Hu) as [Hl _].
      destruct (jump g); [| reflexivity].
      rewrite (Hl eq_refl) in Hj. discriminate. }
    apply (intro_step_untouched g g' Hjg Hstep). apply IH. exact Hjg.
  - assert (Hstep : engineStep g g') by (right; exists fuel, t, f; exact Hd).
    assert (Hjg : jump g = false).
    { destruct (Draw_keeps_flags fuel t g g' f Hd) as [Hl _]. congruence. }
    apply (intro_step_untouched g g' Hjg Hstep). apply IH. exact Hjg.
Qed.

(** X12: as long as the engine is in the intro, it has written nothing of
    the main phase: the counters, the floor offsets and speeds, the offset
    of the main banner and the accumulated rotation are those of
    [NewGame], and the warm-up flag is set.  This still holds in the state
    that the call of [Update] which sets [jump] returns, so the main phase
    always starts from these values. *)
Theorem main_phase_starts_untouched (g : Game) :
  reachable g -> jump g = false ->
  mainUntouched g
  /\ forall g' : Game, Update g = Some g' -> mainUntouched g'.
Proof.
  intros Hr Hj.
  pose proof (reachable_intro_untouched g Hr Hj) as Hm.
  split; [exact Hm |].
  intros g' Hu. apply (intro_step_untouched g g' Hj); [left; exact Hu | exact Hm].
Qed.

Lemma main_phase_starts_untouched_witness :
  (reachable (Init NewGame) /\ jump (Init NewGame) = false)
  /\ mainUntouched (Init NewGame)
  /\ forall g' : Game, Update (Init NewGame) = Some g' -> mainUntouched g'.
Proof.
  split; [split; [apply reach_init | reflexivity] |].
  apply (main_phase_starts_untouched (Init NewGame));
    [apply reach_init | reflexivity].
Defined.

(** ** The engine does not panic *)

Lemma string_get_defined (s : string) :
  forall n : nat, (n < String.length s)%nat -> exists c, String.get n s = Some c.
Proof.
  induction s as [| a s IH]; intros n Hn; cbn [String.length] in Hn; [lia |].
  destruct n as [| n]; cbn [String.get].
  - exists a. reflexivity.
  - apply IH. lia.
Qed.

(** [Update] returns whenever the banner offset is not negative. *)
Lemma Update_returns (g : Game) :
  0 <= scrollX1 g -> exists g' : Game, Update g = Some g'.
Proof.
  intros Hx. unfold Update.
  destruct (jump g); cbn [negb]; [eexists; reflexivity |].
  assert (H0 : 0 <= scrollX1 g / IZR fontWidth).
  { unfold fontWidth, Rdiv. apply Rmult_le_pos; [exact Hx | lra]. }
  pose proof (Int_part_nonneg _ H0) as Hk.
  rewrite int_of_float_nonneg by exact H0.
  destruct (Z.ltb_spec (Int_part (scrollX1 g / IZR fontWidth))
              (Z.of_nat (String.length (text1 g)))) as [Hlt | Hge].
  - unfold byteAt.
    destruct (Z.ltb_spec (Int_part (scrollX1 g / IZR fontWidth)) 0); [lia |].
    destruct (string_get_defined (text1 g)
                (Z.to_nat (Int_part (scrollX1 g / IZR fontWidth))))
      as [c ->]; [lia |].
    cbn [bind]. eexists. reflexivity.
  - cbn [bind]. eexists. reflexivity.
Qed.

Lemma reachable_scrollerReady (g : Game) :
  reachable g -> (0 <= vbl3 g <= max_int - 25)%Z -> scrollerReady g.
Proof.
  intros Hr Hv.
  destruct (reachable_engineInvariant g Hr)
    as (_ & Ht2 & Htab & Hmod & _).
  unfold scrollerReady. rewrite Ht2, Hmod, Htab.
  change (scrollX (Init NewGame)) with (scrollX (precalcScrollX NewGame)).
  rewrite precalcScrollX_length, banner2_length.
  repeat split; try lia; try reflexivity.
Qed.

(** X13: in every state that the engine reaches, [Update] returns; and
    [Draw] returns at every clock reading from 0 on, with a budget of two
    calls for each lookup of the motion profile, as long as the frame
    counter [vbl3] is at least 0 and at most [max_int - 25]: no index is
    out of range, no modulus is zero, no recursion is endless. *)
Theorem engine_does_not_panic (g : Game) (n : nat) (t : R) :
  reachable g -> 0 <= t ->
  (exists g' : Game, Update g = Some g')
  /\ ((0 <= vbl3 g <= max_int - 25)%Z ->
      exists (g' : Game) (f : Frame), Draw (S (S n)) t g = Some (g', f)).
Proof.
  intros Hr Ht.
  pose proof (reachable_engineInvariant g Hr)
    as (Ht1 & _ & _ & _ & _ & _ & _ & _ & Hx1 & _).
  split; [apply Update_returns; lra |].
  intros Hv. destruct (jump g) eqn:Hj.
  - destruct (Draw_main_returns n t g Hj (reachable_scrollerReady g Hr Hv) Ht)
      as (g2 & g' & bands & d & Hdraw & _).
    eexists g', _. exact Hdraw.
  - unfold Draw. rewrite Hj. cbn [negb].
    destruct (drawScrollText_range (text1 g) (scrollX1 g)) as (x1 & -> & _);
      [rewrite Ht1, banner1_length; lia | lra |].
    cbn [bind]. eexists. eexists. reflexivity.
Qed.

Lemma engine_does_not_panic_witness :
  (reachable mainEntry /\ 0 <= 65)
  /\ (exists g' : Game, Update mainEntry = Some g')
  /\ ((0 <= vbl3 mainEntry <= max_int - 25)%Z ->
      exists (g' : Game) (f : Frame), Draw 2 65 mainEntry = Some (g', f)).
Proof.
  assert (H65 : 0 <= 65) by lra.
  split; [split; [apply mainEntry_reachable | exact H65] |].
  apply (engine_does_not_panic mainEntry 0 65 mainEntry_reachable H65).
Defined.

(** ** The floor *)

(** X14: the wraps of the floor offsets cannot be seen.  The quad of band
    [i] at a horizontal offset larger by 32 is the quad of band [i + 1]:
    its near edge moves by 32 and its far edge, which follows [xMove * 6],
    by 192, the spacing of the far edges.  The mask strip of row [i] at a
    vertical offset larger by 64 is the strip of row [i - 1]. *)
Theorem floor_wrap_is_seamless (g : Game) (i : Z) :
  floorQuad (set_xMove g (xMove g + 32)) i = floorQuad g (i + 1)
  /\ maskStrip (set_yMove g (yMove g + 64)) i = maskStrip g (i - 1).
Proof.
  split.
  - unfold floorQuad. fields. rewrite plus_IZR.
    f_equal; [f_equal; [f_equal |] |]; ring.
  - unfold maskStrip. fields.
    replace (fov g + IZR (2 * i) * 32 - (yMove g + 64))
      with (fov g + IZR (2 * (i - 1)) * 32 - yMove g)
      by (rewrite !mult_IZR, minus_IZR; ring).
    replace (fov g + IZR (2 * i) * 32 + 32 - (yMove g + 64))
      with (fov g + IZR (2 * (i - 1)) * 32 + 32 - yMove g)
      by (rewrite !mult_IZR, minus_IZR; ring).
    reflexivity.
Qed.

(** X15: a strip of the mask that is drawn lies inside the 80 rows of the
    floor canvas and is not empty: its top is at least 0, its height is
    positive, and it ends at row 80 at the latest. *)
Theorem maskStrip_inside_canvas (g : Game) (i : Z) (top height : R) :
  maskStrip g i = Some (top, height) ->
  0 <= top < 80 /\ 0 < height /\ top + height <= 80.
Proof.
  unfold maskStrip. cbv zeta.
  set (y1 := -20 + fov g / (fov g + IZR (2 * i) * 32 - yMove g) * 50).
  set (y2 := -20 + fov g / (fov g + IZR (2 * i) * 32 + 32 - yMove g) * 50).
  clearbody y1 y2.
  destruct (fltb_spec y2 y1) as [Hswap | Hswap];
    match goal with
    | |- context [fltb ?a ?b && fltb ?c ?d && fltb ?e ?h] =>
      destruct (fltb_spec a b); destruct (fltb_spec c d);
      destruct (fltb_spec e h); cbn [andb]
    end; try discriminate;
    intros H; injection H as <- <-;
    unfold Rmax, Rmin;
    repeat match goal with
           | |- context [Rle_dec ?a ?b] => destruct (Rle_dec a b)
           end; lra.
Qed.

Lemma maskStrip_inside_canvas_witness :
  exists top height : R,
    maskStrip mainEntry 0 = Some (top, height)
    /\ 0 <= top < 80 /\ 0 < height /\ top + height <= 80.
Proof.
  assert (Hs : maskStrip mainEntry 0 = Some (3430 / 141, 30 - 3430 / 141)).
  { unfold maskStrip.
    change (fov mainEntry) with 250. change (yMove mainEntry) with 0.
    cbv zeta.
    replace (-20 + 250 / (250 + IZR (2 * 0) * 32 - 0) * 50) with 30
      by (cbn; field).
    replace (-20 + 250 / (250 + IZR (2 * 0) * 32 + 32 - 0) * 50)
      with (3430 / 141) by (cbn; field).
    rewrite (fltb_true (3430 / 141) 30) by lra. cbv beta iota.
    rewrite (fltb_true (3430 / 141) 30) by lra.
    rewrite (fltb_true (3430 / 141) 80) by lra.
    rewrite (fltb_true 0 30) by lra.
    cbn [andb]. unfold Rmax, Rmin.
    destruct (Rle_dec 0 (3430 / 141)); destruct (Rle_dec 80 30); try lra.
    reflexivity. }
  eexists. eexists. split; [exact Hs |].
  apply (maskStrip_inside_canvas mainEntry 0 _ _ Hs).
Defined.

(** ** The displacement table and the bands of the scroller *)

Lemma waveA_bound (i : nat) : -50 <= waveA i <= 50.
Proof.
  unfold waveA.
  pose proof (SIN_bound (INR i * (7.0 / 180.0 * PI))).
  pose proof (COS_bound (INR i * (3.0 / 180.0 * PI))). lra.
Qed.

Lemma waveB_bound (i : nat) : -50 <= waveB i <= 50.
Proof.
  unfold waveB. pose proof (SIN_bound (INR i * (8.0 / 180.0 * PI))). lra.
Qed.

Lemma table_bounded (g : Game) :
  Forall (fun x => -50 <= x <= 50) (scrollX (precalcScrollX g)).
Proof.
  rewrite precalcScrollX_table.
  repeat (apply Forall_app; split);
    apply Forall_map, Forall_forall; intros i _;
    (apply waveA_bound || apply waveB_bound).
Qed.

Lemma index_in {A : Type} (l : list A) (k : Z) (x : A) :
  index l k = Some x -> In x l.
Proof.
  unfold index. destruct (k <? 0)%Z; [discriminate |].
  apply nth_error_In.
Qed.

(** Reading the table at a position that is inside it. *)
Lemma index_table (g : Game) (k : nat) :
  (k < 1035)%nat ->
  index (scrollX (precalcScrollX g)) (Z.of_nat k)
  = nth_error (map waveA (seq 0 389) ++ map waveB (seq 0 68)
               ++ map waveA (seq 0 389) ++ map waveB (seq 0 189)) k.
Proof.
  intros Hk. unfold index.
  destruct (Z.ltb_spec (Z.of_nat k) 0); [lia |].
  rewrite Nat2Z.id, precalcScrollX_table. reflexivity.
Qed.

Lemma nth_error_wave (f : nat -> R) (n k : nat) :
  (k < n)%nat -> nth_error (map f (seq 0 n)) k = Some (f k).
Proof.
  intros Hk. rewrite nth_error_map, nth_error_seq.
  destruct (Nat.ltb_spec k n); [reflexivity | lia].
Qed.

(** X16: every entry of the displacement table is between -50 and 50; the
    third segment of the table repeats the first, entry for entry, and the
    fourth segment begins with the 68 entries of the second. *)
Theorem displacement_table_repeats (g : Game) (i : nat) :
  (forall (k : Z) (x : R),
      index (scrollX (precalcScrollX g)) k = Some x -> -50 <= x <= 50)
  /\ ((i < 389)%nat ->
      index (scrollX (precalcScrollX g)) (Z.of_nat (389 + 68 + i))
      = index (scrollX (precalcScrollX g)) (Z.of_nat i))
  /\ ((i < 68)%nat ->
      index (scrollX (precalcScrollX g)) (Z.of_nat (389 + 68 + 389 + i))
      = index (scrollX (precalcScrollX g)) (Z.of_nat (389 + i))).
Proof.
  split; [| split].
  - intros k x Hx. apply index_in in Hx.
    pose proof (table_bounded g) as Hall.
    rewrite Forall_forall in Hall. apply Hall. exact Hx.
  - intros Hi. rewrite !index_table by lia.
    rewrite nth_error_app2 by (rewrite length_map, length_seq; lia).
    rewrite nth_error_app2
      by (rewrite !length_map, !length_seq; lia).
    rewrite !length_map, !length_seq.
    rewrite nth_error_app1 by (rewrite length_map, length_seq; lia).
    rewrite (nth_error_app1 (map waveA (seq 0 389)))
      by (rewrite length_map, length_seq; lia).
    rewrite !nth_error_wave by lia.
    f_equal; f_equal; lia.
  - intros Hi. rewrite !index_table by lia.
    rewrite nth_error_app2 by (rewrite length_map, length_seq; lia).
    rewrite nth_error_app2
      by (rewrite !length_map, !length_seq; lia).
    rewrite nth_error_app2
      by (rewrite !length_map, !length_seq; lia).
    rewrite !length_map, !length_seq.
    rewrite (nth_error_app2 (map waveA (seq 0 389)))
      by (rewrite length_map, length_seq; lia).
    rewrite !length_map, !length_seq.
    rewrite nth_error_app1 by (rewrite length_map, length_seq; lia).
    rewrite !nth_error_wave by lia.
    f_equal; f_equal; lia.
Qed.
Lemma displacement_table_repeats_witness :
  ((0 < 389)%nat /\ (0 < 68)%nat
   /\ index (scrollX (precalcScrollX NewGame)) (Z.of_nat 0) = Some (waveA 0))
  /\ -50 <= waveA 0 <= 50
  /\ index (scrollX (precalcScrollX NewGame)) (Z.of_nat (389 + 68 + 0))
     = index (scrollX (precalcScrollX NewGame)) (Z.of_nat 0)
  /\ index (scrollX (precalcScrollX NewGame)) (Z.of_nat (389 + 68 + 389 + 0))
     = index (scrollX (precalcScrollX NewGame)) (Z.of_nat (389 + 0)).
Proof.
  assert (H1 : (0 < 389)%nat) by lia.
  assert (H2 : (0 < 68)%nat) by lia.
  assert (H3 : index (scrollX (precalcScrollX NewGame)) (Z.of_nat 0)
               = Some (waveA 0)).
  { rewrite index_table by lia.
    rewrite nth_error_app1 by (rewrite length_map, length_seq; lia).
    apply nth_error_wave. lia. }
  destruct (displacement_table_repeats NewGame 0) as (Hbound & Hfirst & Hsecond).
  split; [repeat split; assumption |].
  split; [exact (Hbound _ _ H3) |].
  split; [exact (Hfirst H1) | exact (Hsecond H2)].
Defined.


(** *** A loop that appends one value per iteration *)

Lemma collect_fold {A : Type} (f : nat -> option A)
  (body : nat -> list A -> option (list A)) :
  (forall j acc, body j acc = (x <- f j ;; Some (acc ++ [x]))) ->
  forall (l : list nat) (acc res : list A),
    fold_left (fun a i => s' <- a ;; body i s') l (Some acc) = Some res ->
    exists ys : list A, res = acc ++ ys /\ map f l = map Some ys.
Proof.
  intros Hbody l. induction l as [| i l IH]; intros acc res H;
    cbn [fold_left] in H.
  - injection H as <-. exists []. rewrite app_nil_r. split; reflexivity.
  - cbn [bind] in H. rewrite Hbody in H.
    destruct (f i) as [x |] eqn:Hx; cbn [bind] in H.
    + destruct (IH _ _ H) as (ys & -> & Hmap).
      exists (x :: ys). rewrite <- app_assoc. split; [reflexivity |].
      cbn [map]. rewrite Hx, Hmap. reflexivity.
    + rewrite fold_bind_none in H. discriminate.
Qed.

Lemma for_range_collect {A : Type} (f : nat -> option A)
  (body : nat -> list A -> option (list A)) (n : nat) (res : list A) :
  (forall j acc, body j acc = (x <- f j ;; Some (acc ++ [x]))) ->
  for_range 0 n body [] = Some res ->
  List.length res = n
  /\ forall j, (j < n)%nat ->
       exists x : A, f j = Some x /\ nth_error res j = Some x.
Proof.
  intros Hbody H. unfold for_range in H. rewrite Nat.sub_0_r in H.
  destruct (collect_fold f body Hbody _ _ _ H) as (ys & -> & Hmap).
  cbn [app].
  assert (Hlen : List.length ys = n).
  { apply (f_equal (@List.length _)) in Hmap.
    rewrite !length_map, length_seq in Hmap. congruence. }
  split; [exact Hlen |].
  intros j Hj.
  apply (f_equal (fun l => nth_error l j)) in Hmap.
  rewrite !nth_error_map, nth_error_seq in Hmap.
  destruct (Nat.ltb_spec j n) as [_ | Hge]; [| lia].
  cbn [option_map Nat.add] in Hmap.
  destruct (nth_error ys j) as [y |]; cbn [option_map] in Hmap;
    [| discriminate].
  injection Hmap as Hmap. exists y. split; [exact Hmap | reflexivity].
Qed.

Lemma bandShift_value (g : Game) (j : nat) (x : R) :
  scrollerReady g -> (j < 25)%nat -> bandShift g j = Some x ->
  index (scrollX g) ((vbl3 g + Z.of_nat j) mod scrollXMod g) = Some x.
Proof.
  intros (_ & Hmod & Hpos & Hv) Hj. unfold bandShift.
  destruct (Z.eqb_spec (scrollXMod g) 0) as [H0 | _]; [lia |].
  rewrite int_add_small by (unfold min_int, max_int in *; lia).
  unfold int_rem. rewrite Z.rem_mod_nonneg by lia. intros H. exact H.
Qed.

Lemma yOffset_range (v : R) : 0 <= 30 + 30 * cos (v / 20) <= 60.
Proof. pose proof (COS_bound (v / 20)). lra. Qed.

(** X17: in every reachable state whose frame counter is between 0 and
    [max_int - 25], [drawScroller] returns 25 bands.  Band [j] is shifted
    horizontally by the table entry number [(vbl3 + j) mod 1035], which is
    between -50 and 50, and is placed [2 j + 30 + 30 cos(vbl4/20)] rows
    down, which is between [2 j] and [2 j + 60]; the frame counter
    advances by 1 and [vbl4] by 1.2, so the next frame shifts its band [j]
    as this frame shifts its band [j + 1]. *)
Theorem scroller_bands (g : Game) :
  reachable g -> (0 <= vbl3 g <= max_int - 25)%Z ->
  exists (g' : Game) (bands : list (R * R)),
    drawScroller g = Some (g', bands)
    /\ List.length bands = 25%nat
    /\ (forall j : nat, (j < 25)%nat ->
          exists x : R,
            index (scrollX g) ((vbl3 g + Z.of_nat j) mod 1035) = Some x
            /\ -50 <= x <= 50
            /\ nth_error bands j
               = Some (x, IZR (Z.of_nat j * 2) + (30 + 30 * cos (vbl4 g / 20)))
            /\ IZR (Z.of_nat j * 2)
               <= IZR (Z.of_nat j * 2) + (30 + 30 * cos (vbl4 g / 20))
               <= IZR (Z.of_nat j * 2) + 60)
    /\ vbl3 g' = (vbl3 g + 1)%Z
    /\ vbl4 g' = vbl4 g + 1.2
    /\ (forall j : nat, (j < 24)%nat -> bandShift g' j = bandShift g (S j)).
Proof.
  intros Hr Hv.
  pose proof (reachable_scrollerReady g Hr Hv) as Hready.
  destruct (reachable_engineInvariant g Hr) as (_ & _ & Htab & Hmod & _).
  destruct (drawScroller_returns g Hready) as (g' & bands & Hrun & _).
  exists g', bands. split; [exact Hrun |].
  destruct (drawScroller_state g g' bands Hrun) as (x2 & Hx2 & Hg').
  unfold drawScroller in Hrun. rewrite Hx2 in Hrun. cbn [bind] in Hrun.
  set (g1 := set_scrollX2 g x2) in *.
  apply bind_Some in Hrun as (pass1 & _ & Hrun).
  apply bind_Some in Hrun as (pass2 & Hpass2 & Hrun).
  injection Hrun as _ <-.
  assert (Hready1 : scrollerReady g1) by exact Hready.
  assert (Hbands :
            List.length pass2 = 25%nat
            /\ forall j, (j < 25)%nat ->
                 exists p : R * R,
                   (dstX <- bandShift g1 j ;;
                    Some (dstX, IZR (Z.of_nat j * 2)
                                + (30 + 30 * cos (vbl4 g1 / 20)))) = Some p
                   /\ nth_error pass2 j = Some p).
  { match type of Hpass2 with
    | for_range 0 25 ?body [] = _ =>
      apply (for_range_collect
               (fun j => dstX <- bandShift g1 j ;;
                         Some (dstX, IZR (Z.of_nat j * 2)
                                     + (30 + 30 * cos (vbl4 g1 / 20))))
               body 25 pass2)
    end; [| exact Hpass2].
    intros j acc. destruct (bandShift g1 j); reflexivity. }
  destruct Hbands as [Hlen Hnth].
  split; [exact Hlen |]. split.
  { intros j Hj. destruct (Hnth j Hj) as (p & Hp & Hpj).
    destruct (bandShift g1 j) as [x |] eqn:Hx; cbn [bind] in Hp;
      [| discriminate].
    injection Hp as <-.
    apply (bandShift_value g1 j x Hready1 Hj) in Hx.
    change (scrollX g1) with (scrollX g) in Hx.
    change (vbl3 g1) with (vbl3 g) in Hx.
    change (scrollXMod g1) with (scrollXMod g) in Hx.
    rewrite Hmod in Hx.
    exists x. split; [exact Hx |]. split.
    - apply index_in in Hx. rewrite Htab in Hx.
      pose proof (table_bounded NewGame) as Hall.
      rewrite Forall_forall in Hall. apply Hall. exact Hx.
    - split; [exact Hpj |].
      pose proof (yOffset_range (vbl4 g)). lra. }
  rewrite Hg'. fields.
  split; [apply int_add_small; unfold min_int, max_int in *; lia |].
  split; [reflexivity |].
  intros j Hj. unfold bandShift. fields.
  rewrite (int_add_small (vbl3 g) 1) by (unfold min_int, max_int in *; lia).
  rewrite !int_add_small by (unfold min_int, max_int in *; lia).
  replace (vbl3 g + 1 + Z.of_nat j)%Z with (vbl3 g + Z.of_nat (S j))%Z by lia.
  reflexivity.
Qed.

Lemma scroller_bands_witness :
  (reachable mainEntry /\ (0 <= vbl3 mainEntry <= max_int - 25)%Z)
  /\ exists (g' : Game) (bands : list (R * R)),
       drawScroller mainEntry = Some (g', bands)
       /\ List.length bands = 25%nat.
Proof.
  assert (Hv : (0 <= vbl3 mainEntry <= max_int - 25)%Z)
    by (change (vbl3 mainEntry) with 0%Z; unfold max_int; lia).
  split; [split; [apply mainEntry_reachable | exact Hv] |].
  destruct (scroller_bands mainEntry mainEntry_reachable Hv)
    as (g' & bands & Hrun & Hlen & _).
  exists g', bands. split; assumption.
Defined.

(** ** Glyphs *)



(** *** The glyph loop of [drawScrollText] *)

Lemma filter_fold {A : Type} (f : nat -> option (option A))
  (body : nat -> list A -> option (list A)) :
  (forall j acc,
      body j acc
      = (og <- f j ;;
         Some (match og with Some x => acc ++ [x] | None => acc end))) ->
  forall (l : list nat) (acc res : list A),
    fold_left (fun a i => s' <- a ;; body i s') l (Some acc) = Some res ->
    forall x : A,
      In x res <-> In x acc \/ exists i, In i l /\ f i = Some (Some x).
Proof.
  intros Hbody l. induction l as [| i l IH]; intros acc res H x;
    cbn [fold_left] in H.
  - injection H as <-. split; [intros Hx; left; exact Hx |].
    intros [Hx | (i & [] & _)]. exact Hx.
  - cbn [bind] in H. rewrite Hbody in H.
    destruct (f i) as [og |] eqn:Hf; cbn [bind] in H;
      [| rewrite fold_bind_none in H; discriminate].
    rewrite (IH _ _ H x). destruct og as [y |].
    + rewrite in_app_iff. cbn [In]. split.
      * intros [[Hx | [-> | []]] | (k & Hk & Hfk)].
        -- left. exact Hx.
        -- right. exists i. split; [left; reflexivity | exact Hf].
        -- right. exists k. split; [right; exact Hk | exact Hfk].
      * intros [Hx | (k & [-> | Hk] & Hfk)].
        -- left. left. exact Hx.
        -- left. right. left. congruence.
        -- right. exists k. split; assumption.
    + split.
      * intros [Hx | (k & Hk & Hfk)]; [left; exact Hx |].
        right. exists k. split; [right; exact Hk | exact Hfk].
      * intros [Hx | (k & [-> | Hk] & Hfk)]; [left; exact Hx | congruence |].
        right. exists k. split; assumption.
Qed.

(** The whole cells in a width. *)
Lemma cells_in_width (a : Z) :
  (0 <= a)%Z -> int_of_float (IZR a / IZR fontWidth) = (a / 62)%Z.
Proof.
  intros Ha. unfold fontWidth.
  assert (H0 : 0 <= IZR a / 62).
  { unfold Rdiv. apply Rmult_le_pos; [apply IZR_le; exact Ha | lra]. }
  rewrite int_of_float_nonneg by exact H0.
  apply Int_part_unique.
  pose proof (Z.div_mod a 62 ltac:(lia)) as Hdm.
  pose proof (Z.mod_pos_bound a 62 ltac:(lia)) as Hr.
  assert (Hsplit : IZR a = 62 * IZR (a / 62) + IZR (a mod 62)).
  { rewrite Hdm at 1. rewrite plus_IZR, mult_IZR. reflexivity. }
  assert (H1 : 0 <= IZR (a mod 62)) by (apply IZR_le; lia).
  assert (H2 : IZR (a mod 62) <= 61) by (apply IZR_le; lia).
  rewrite Hsplit. lra.
Qed.

(** Where the banner stands: the cell [cell] under the left edge of the
    canvas and the part [shift] of it that has already left the canvas. *)
Lemma banner_position (len : nat) (scrollX : R) :
  0 <= scrollX < IZR (Z.of_nat len) * IZR fontWidth ->
  let cell := int_of_float (scrollX / IZR fontWidth) in
  let shift := fmod scrollX (IZR fontWidth) in
  (0 <= cell < Z.of_nat len)%Z
  /\ shift = scrollX - 62 * IZR cell
  /\ 0 <= shift < 62.
Proof.
  intros Hx cell shift. unfold fontWidth in *.
  assert (H0 : 0 <= scrollX / 62) by lra.
  assert (Hc : cell = Int_part (scrollX / 62))
    by (apply int_of_float_nonneg; exact H0).
  destruct (Int_part_bounds (scrollX / 62)) as [Hlo Hhi].
  rewrite <- Hc in Hlo, Hhi.
  split.
  - split; [rewrite Hc; apply Int_part_nonneg; exact H0 |].
    apply lt_IZR. lra.
  - subst shift. unfold fmod. fold cell. split; [reflexivity | lra].
Qed.

(** Every iteration of the loop: it reads the character [cell + i] cells
    into the text, going round at the end of the text, and draws it when it
    starts left of the right margin. *)
Lemma scrollGlyph_spec (dx : Z) (text : string) (cell : Z) (shift : R)
  (i : nat) :
  (0 <= cell < Z.of_nat (String.length text))%Z ->
  (Z.of_nat (String.length text) + Z.of_nat i <= max_int)%Z ->
  0 <= shift < 62 ->
  exists c : ascii,
    String.get (Z.to_nat ((cell + Z.of_nat i) mod Z.of_nat (String.length text)))
               text = Some c
    /\ scrollGlyph dx text cell shift i
       = if fltb (IZR (Z.of_nat i) * 62 - shift) (IZR dx + 62)
         then Some (Some (drawChar (byteCode c)
                            (IZR (Z.of_nat i) * 62 - shift) 0 1))
         else Some None.
Proof.
  intros Hcell Hlen Hshift.
  set (len := Z.of_nat (String.length text)) in *.
  assert (Hm : (0 <= (cell + Z.of_nat i) mod len < len)%Z)
    by (apply Z.mod_pos_bound; lia).
  destruct (string_get_defined text
              (Z.to_nat ((cell + Z.of_nat i) mod len))) as [c Hc];
    [subst len; lia |].
  exists c. split; [exact Hc |].
  unfold scrollGlyph. fold len. cbv zeta. unfold fontWidth.
  destruct (Z.eqb_spec len 0) as [H0 | _]; [lia |].
  rewrite int_add_small by (unfold min_int, max_int in *; lia).
  unfold int_rem. rewrite Z.rem_mod_nonneg by lia.
  destruct (Z.ltb_spec ((cell + Z.of_nat i) mod len) 0) as [Hneg | _]; [lia |].
  assert (Hi : 0 <= IZR (Z.of_nat i)) by (apply IZR_le; lia).
  rewrite (fltb_false (IZR (Z.of_nat i) * 62 - shift) (Ropp 62)) by lra.
  cbn [negb andb].
  destruct (fltb (IZR (Z.of_nat i) * 62 - shift) (IZR dx + 62));
    [| reflexivity].
  unfold byteAt.
  destruct (Z.ltb_spec ((cell + Z.of_nat i) mod len) 0) as [Hneg | _]; [lia |].
  rewrite Hc. reflexivity.
Qed.

(** The glyphs of a banner, for an offset within the text. *)
Lemma scroll_glyphs_spec (dx : Z) (text : string) (scrollX : R) :
  (0 < String.length text)%nat -> (0 <= dx)%Z ->
  (Z.of_nat (String.length text) + dx + 3 <= max_int)%Z ->
  0 <= scrollX < IZR (Z.of_nat (String.length text)) * IZR fontWidth ->
  let cell := int_of_float (scrollX / IZR fontWidth) in
  let shift := fmod scrollX (IZR fontWidth) in
  exists (glyphs : list GlyphDraw) (x' : R),
    drawScrollTextGlyphs dx text scrollX = Some (glyphs, x')
    /\ drawScrollText text scrollX = Some x'
    /\ forall gd : GlyphDraw,
         In gd glyphs <->
         exists (i : nat) (c : ascii),
           (Z.of_nat i < dx / 62 + 3)%Z
           /\ IZR (Z.of_nat i) * 62 - shift < IZR dx + 62
           /\ String.get
                (Z.to_nat ((cell + Z.of_nat i)
                           mod Z.of_nat (String.length text))) text = Some c
           /\ gd = drawChar (byteCode c) (IZR (Z.of_nat i) * 62 - shift) 0 1.
Proof.
  intros Hlen Hdx Hfit Hx cell shift.
  destruct (banner_position _ _ Hx) as (Hcell & _ & Hshift).
  fold cell in Hcell. fold shift in Hshift.
  assert (Hq : (0 <= dx / 62 <= dx)%Z).
  { split; [apply Z.div_pos; lia |].
    apply Z.div_le_upper_bound; lia. }
  unfold drawScrollTextGlyphs, drawScrollText. cbv zeta.
  fold cell. fold shift.
  rewrite (cells_in_width dx Hdx).
  rewrite int_add_small by (unfold min_int, max_int in *; lia).
  destruct (Nat.eqb_spec (String.length text) 0) as [H0 | _]; [lia |].
  assert (Hspec : forall i, (Z.of_nat i < dx / 62 + 3)%Z ->
             exists c : ascii,
               String.get
                 (Z.to_nat ((cell + Z.of_nat i)
                            mod Z.of_nat (String.length text))) text = Some c
               /\ scrollGlyph dx text cell shift i
                  = if fltb (IZR (Z.of_nat i) * 62 - shift) (IZR dx + 62)
                    then Some (Some (drawChar (byteCode c)
                                       (IZR (Z.of_nat i) * 62 - shift) 0 1))
                    else Some None).
  { intros i Hi. apply scrollGlyph_spec; [exact Hcell | lia | exact Hshift]. }
  destruct (for_range_returns 0 (Z.to_nat (dx / 62 + 3))
              (fun i acc =>
                 og <- scrollGlyph dx text cell shift i ;;
                 Some (match og with
                       | Some gd => acc ++ [gd]
                       | None => acc
                       end)) []) as [glyphs Hrun].
  { intros i acc Hi. destruct (Hspec i) as (c & _ & ->); [lia |].
    destruct (fltb _ _); cbn [bind]; eexists; reflexivity. }
  rewrite Hrun. cbn [bind].
  eexists. eexists. split; [reflexivity |]. split; [reflexivity |].
  intros gd. unfold for_range in Hrun. rewrite Nat.sub_0_r in Hrun.
  rewrite (filter_fold (scrollGlyph dx text cell shift) _
             (fun j acc => eq_refl) _ _ _ Hrun gd).
  cbn [In]. split.
  - intros [[] | (i & Hi & Hg)].
    apply in_seq in Hi.
    destruct (Hspec i) as (c & Hc & Hsg); [lia |].
    rewrite Hsg in Hg.
    destruct (fltb_spec (IZR (Z.of_nat i) * 62 - shift) (IZR dx + 62))
      as [Hdraw | Hno]; [| discriminate].
    injection Hg as <-. exists i, c.
    split; [lia |]. split; [exact Hdraw |]. split; [exact Hc | reflexivity].
  - intros (i & c & Hi & Hdraw & Hc & ->). right. exists i.
    split; [apply in_seq; lia |].
    destruct (Hspec i Hi) as (c' & Hc' & ->).
    rewrite (fltb_true _ _ Hdraw). congruence.
Qed.

Lemma drawChar_position (char : Z) (x y scale : R) :
  glyphX (drawChar char x y scale) = x
  /\ glyphY (drawChar char x y scale) = y
  /\ glyphScale (drawChar char x y scale) = scale.
Proof. repeat split. Qed.

(** X19: for a text that is not empty and an offset of at least 0 and
    below its pixel length, [drawScrollText] does not panic, returns the
    offset that the engine stores, and every glyph it draws is a character
    of the text read cyclically: glyph [i] shows the character
    [(cell + i) mod len], where [cell = floor(scrollX / 62)], at
    [x = 62 i - (scrollX - 62 cell)], on the base line, at scale 1, and
    starts less than one cell outside the canvas on either side. *)
Theorem banner_glyphs_read_cyclically (dx : Z) (text : string) (scrollX : R) :
  (0 < String.length text)%nat -> (0 <= dx)%Z ->
  (Z.of_nat (String.length text) + dx + 3 <= max_int)%Z ->
  0 <= scrollX < IZR (Z.of_nat (String.length text)) * IZR fontWidth ->
  exists (glyphs : list GlyphDraw) (x' : R),
    drawScrollTextGlyphs dx text scrollX = Some (glyphs, x')
    /\ drawScrollText text scrollX = Some x'
    /\ forall gd : GlyphDraw,
         In gd glyphs ->
         exists (i : nat) (c : ascii),
           String.get
             (Z.to_nat ((floorZ (scrollX / 62) + Z.of_nat i)
                        mod Z.of_nat (String.length text))) text = Some c
           /\ gd = drawChar (byteCode c)
                     (IZR (Z.of_nat i) * 62
                      - (scrollX - 62 * IZR (floorZ (scrollX / 62)))) 0 1
           /\ -62 < glyphX gd < IZR dx + 62
           /\ glyphY gd = 0
           /\ glyphScale gd = 1.
Proof.
  intros Hlen Hdx Hfit Hx.
  destruct (scroll_glyphs_spec dx text scrollX Hlen Hdx Hfit Hx)
    as (glyphs & x' & Hrun & Hoff & Hin).
  destruct (banner_position _ _ Hx) as (Hcell & Hshift & Hrange).
  assert (Hfloor : int_of_float (scrollX / IZR fontWidth)
                   = floorZ (scrollX / 62)).
  { unfold fontWidth in *. apply int_of_float_nonneg. lra. }
  exists glyphs, x'. split; [exact Hrun |]. split; [exact Hoff |].
  intros gd Hgd. apply Hin in Hgd as (i & c & Hi & Hdraw & Hc & ->).
  rewrite Hshift, Hfloor in *.
  exists i, c. split; [exact Hc |]. split; [reflexivity |].
  destruct (drawChar_position (byteCode c)
              (IZR (Z.of_nat i) * 62
               - (scrollX - 62 * IZR (floorZ (scrollX / 62)))) 0 1)
    as (-> & -> & ->).
  assert (0 <= IZR (Z.of_nat i)) by (apply IZR_le; lia).
  repeat split; lra.
Qed.

Lemma banner_glyphs_read_cyclically_witness :
  ((0 < String.length banner1)%nat /\ (0 <= 768)%Z
   /\ (Z.of_nat (String.length banner1) + 768 + 3 <= max_int)%Z
   /\ 0 <= 0 < IZR (Z.of_nat (String.length banner1)) * IZR fontWidth)
  /\ exists (glyphs : list GlyphDraw) (x' : R),
       drawScrollTextGlyphs 768 banner1 0 = Some (glyphs, x')
       /\ drawScrollText banner1 0 = Some x'.
Proof.
  assert (H1 : (0 < String.length banner1)%nat) by (rewrite banner1_length; lia).
  assert (H2 : (0 <= 768)%Z) by lia.
  assert (H3 : (Z.of_nat (String.length banner1) + 768 + 3 <= max_int)%Z)
    by (rewrite banner1_length; unfold max_int; lia).
  assert (H4 : 0 <= 0 < IZR (Z.of_nat (String.length banner1)) * IZR fontWidth)
    by (rewrite banner1_length; unfold fontWidth; cbn; lra).
  split; [repeat split; assumption || apply H4 |].
  destruct (banner_glyphs_read_cyclically 768 banner1 0 H1 H2 H3 H4)
    as (glyphs & x' & Hrun & Hoff & _).
  exists glyphs, x'. split; assumption.
Defined.

Lemma width_in_cells (a : Z) : (0 <= a)%Z -> IZR a / 62 < IZR (a / 62) + 1.
Proof.
  intros Ha.
  pose proof (Z.div_mod a 62 ltac:(lia)) as Hdm.
  pose proof (Z.mod_pos_bound a 62 ltac:(lia)) as Hr.
  assert (Hsplit : IZR a = 62 * IZR (a / 62) + IZR (a mod 62)).
  { rewrite Hdm at 1. rewrite plus_IZR, mult_IZR. reflexivity. }
  assert (H2 : IZR (a mod 62) <= 61) by (apply IZR_le; lia).
  rewrite Hsplit. lra.
Qed.

(** X20: for a text that is not empty and an offset of at least 0 and
    below its pixel length, the glyphs that [drawScrollText] draws leave no
    gap: every pixel column of the canvas, from 0 up to its width, lies in
    the 62 columns of a glyph that is drawn. *)
Theorem banner_covers_canvas (dx : Z) (text : string) (scrollX p : R) :
  (0 < String.length text)%nat -> (0 <= dx)%Z ->
  (Z.of_nat (String.length text) + dx + 3 <= max_int)%Z ->
  0 <= scrollX < IZR (Z.of_nat (String.length text)) * IZR fontWidth ->
  0 <= p < IZR dx ->
  exists (glyphs : list GlyphDraw) (x' : R) (gd : GlyphDraw),
    drawScrollTextGlyphs dx text scrollX = Some (glyphs, x')
    /\ In gd glyphs
    /\ glyphX gd <= p < glyphX gd + 62.
Proof.
  intros Hlen Hdx Hfit Hx Hp.
  destruct (scroll_glyphs_spec dx text scrollX Hlen Hdx Hfit Hx)
    as (glyphs & x' & Hrun & _ & Hin).
  destruct (banner_position _ _ Hx) as (Hcell & _ & Hrange).
  set (cell := int_of_float (scrollX / IZR fontWidth)) in *.
  set (shift := fmod scrollX (IZR fontWidth)) in *.
  assert (H0 : 0 <= (p + shift) / 62) by lra.
  pose proof (Int_part_nonneg _ H0) as Hk.
  destruct (Int_part_bounds ((p + shift) / 62)) as [Hlo Hhi].
  set (k := Int_part ((p + shift) / 62)) in *.
  pose proof (width_in_cells dx Hdx) as Hw.
  assert (Hkq : (k < dx / 62 + 3)%Z).
  { apply lt_IZR. rewrite plus_IZR. lra. }
  assert (Hik : IZR (Z.of_nat (Z.to_nat k)) = IZR k)
    by (rewrite Z2Nat.id by lia; reflexivity).
  assert (Hmod : (0 <= (cell + Z.of_nat (Z.to_nat k))
                      mod Z.of_nat (String.length text)
                  < Z.of_nat (String.length text))%Z)
    by (apply Z.mod_pos_bound; lia).
  destruct (string_get_defined text
              (Z.to_nat ((cell + Z.of_nat (Z.to_nat k))
                         mod Z.of_nat (String.length text)))) as [c Hc];
    [lia |].
  exists glyphs, x',
    (drawChar (byteCode c) (IZR (Z.of_nat (Z.to_nat k)) * 62 - shift) 0 1).
  split; [exact Hrun |]. split.
  - apply Hin. exists (Z.to_nat k), c.
    split; [rewrite Z2Nat.id; lia |].
    split; [rewrite Hik; lra |]. split; [exact Hc | reflexivity].
  - destruct (drawChar_position (byteCode c)
                (IZR (Z.of_nat (Z.to_nat k)) * 62 - shift) 0 1) as (-> & _).
    rewrite Hik. lra.
Qed.

Lemma banner_covers_canvas_witness :
  ((0 < String.length banner1)%nat /\ (0 <= 768)%Z
   /\ (Z.of_nat (String.length banner1) + 768 + 3 <= max_int)%Z
   /\ 0 <= 0 < IZR (Z.of_nat (String.length banner1)) * IZR fontWidth
   /\ 0 <= 767 < IZR 768)
  /\ exists (glyphs : list GlyphDraw) (x' : R) (gd : GlyphDraw),
       drawScrollTextGlyphs 768 banner1 0 = Some (glyphs, x')
       /\ In gd glyphs
       /\ glyphX gd <= 767 < glyphX gd + 62.
Proof.
  assert (H1 : (0 < String.length banner1)%nat) by (rewrite banner1_length; lia).
  assert (H2 : (0 <= 768)%Z) by lia.
  assert (H3 : (Z.of_nat (String.length banner1) + 768 + 3 <= max_int)%Z)
    by (rewrite banner1_length; unfold max_int; lia).
  assert (H4 : 0 <= 0 < IZR (Z.of_nat (String.length banner1)) * IZR fontWidth)
    by (rewrite banner1_length; unfold fontWidth; cbn; lra).
  assert (H5 : 0 <= 767 < IZR 768) by lra.
  split; [repeat split; assumption || apply H4 || apply H5 |].
  apply (banner_covers_canvas 768 banner1 0 767 H1 H2 H3 H4 H5).
Defined.
